(** * picture-color-theme-picker: the clustering and colour metrics of
      [src/algorithm.js], embedded and verified.

    Conventions of the embedding.

    - A colour point is a JavaScript array [[r, g, b]] of integers; it is
      modelled as a triple of [Z].
    - A JavaScript number that is not known to be an integer is a [num]:
      an exact rational, or one of the three special values [NaN],
      [+Infinity], [-Infinity].  Arithmetic is exact (the rounding of
      binary64 and the sign of zero are abstracted away); the special
      values follow ECMAScript.  The properties stated are those on which
      exact and rounded arithmetic agree: tests for zero and for [NaN],
      ranges, numbers rounded to integers, and comparisons of distances,
      which are decided on the integer radicands.
    - [Math.random()] is an oracle [rnd : nat -> Q]; the state threaded
      through the code counts the draws made so far.
    - A thrown [TypeError] is the outcome [Throw]. *)

From Stdlib Require Import ZArith QArith Qround List Bool Lia Permutation.
From Stdlib Require Import Sorted Reals.
From Stdlib Require Qcanon.
From Stdlib Require Import Lqa.
Import ListNotations.

Set Implicit Arguments.

Local Open Scope Z_scope.

(** ** JavaScript numbers *)

Module Num.

Inductive num : Type :=
| Fin (q : Q)
| NaN
| PInf
| NInf.

Definition of_Z (z : Z) : num := Fin (inject_Z z).

Definition is_zero (q : Q) : bool := Qnum q =? 0.
Definition is_pos (q : Q) : bool := 0 <? Qnum q.

Definition neg (a : num) : num :=
  match a with
  | Fin q => Fin (Qred (- q))
  | NaN => NaN
  | PInf => NInf
  | NInf => PInf
  end.

Definition add (a b : num) : num :=
  match a, b with
  | NaN, _ | _, NaN => NaN
  | Fin x, Fin y => Fin (Qred (x + y))
  | PInf, NInf | NInf, PInf => NaN
  | PInf, _ | _, PInf => PInf
  | NInf, _ | _, NInf => NInf
  end.

Definition sub (a b : num) : num := add a (neg b).

(** [inf_signed q]: the infinity carrying the sign of the non-zero [q]. *)
Definition inf_signed (q : Q) : num := if is_pos q then PInf else NInf.

Definition mul (a b : num) : num :=
  match a, b with
  | NaN, _ | _, NaN => NaN
  | Fin x, Fin y => Fin (Qred (x * y))
  | Fin x, PInf | PInf, Fin x => if is_zero x then NaN else inf_signed x
  | Fin x, NInf | NInf, Fin x => if is_zero x then NaN else inf_signed (- x)
  | PInf, PInf | NInf, NInf => PInf
  | PInf, NInf | NInf, PInf => NInf
  end.

(** Division: [0/0] is [NaN], [x/0] is an infinity with the sign of [x]. *)
Definition div (a b : num) : num :=
  match a, b with
  | NaN, _ | _, NaN => NaN
  | Fin x, Fin y =>
      if is_zero y
      then (if is_zero x then NaN else inf_signed x)
      else Fin (Qred (x / y))
  | Fin _, (PInf | NInf) => Fin 0
  | (PInf | NInf), (PInf | NInf) => NaN
  | PInf, Fin y => if is_zero y then PInf else inf_signed y
  | NInf, Fin y => if is_zero y then NInf else inf_signed (- y)
  end.

(** Truncation toward zero, used by the remainder. *)
Definition Qtrunc (q : Q) : Z := Z.quot (Qnum q) (Zpos (Qden q)).

(** The [%] operator: the result takes the sign of the dividend. *)
Definition rem (a b : num) : num :=
  match a, b with
  | NaN, _ | _, NaN => NaN
  | (PInf | NInf), _ => NaN
  | Fin x, (PInf | NInf) => Fin x
  | Fin x, Fin y =>
      if is_zero y then NaN
      else Fin (Qred (x - y * inject_Z (Qtrunc (x / y))))
  end.

(** [Math.round]: the nearest integer, a tie going up. *)
Definition round (a : num) : num :=
  match a with
  | Fin q => Fin (inject_Z (Qfloor (q + (1 # 2))))
  | other => other
  end.

(** [a < b]; false whenever an operand is [NaN]. *)
Definition ltb (a b : num) : bool :=
  match a, b with
  | NaN, _ | _, NaN => false
  | Fin x, Fin y => negb (Qle_bool y x)
  | NInf, NInf => false
  | NInf, _ => true
  | _, NInf => false
  | PInf, _ => false
  | Fin _, PInf => true
  end.

Definition gtb (a b : num) : bool := ltb b a.

(** A total order of the numbers that is [<] away from [NaN], which it
    puts first: what "smaller" means for the keys of a sort. *)
Definition precedes (a b : num) : bool :=
  match a, b with
  | _, NaN => false
  | NaN, _ => true
  | _, _ => ltb a b
  end.

(** [a <= b]; false whenever an operand is [NaN]. *)
Definition leb (a b : num) : bool :=
  match a, b with
  | NaN, _ | _, NaN => false
  | Fin x, Fin y => Qle_bool x y
  | NInf, _ => true
  | _, PInf => true
  | _, _ => false
  end.

(** [Math.max(a, b)] and [Math.min(a, b)]: [NaN] is contagious. *)
Definition max2 (a b : num) : num :=
  match a, b with
  | NaN, _ | _, NaN => NaN
  | _, _ => if ltb a b then b else a
  end.

Definition min2 (a b : num) : num :=
  match a, b with
  | NaN, _ | _, NaN => NaN
  | _, _ => if ltb b a then b else a
  end.

(** [Math.max(...l)] and [Math.min(...l)];
    on no argument they are [-Infinity] and [+Infinity]. *)
Definition max_list (l : list num) : num := fold_left max2 l NInf.
Definition min_list (l : list num) : num := fold_left min2 l PInf.

End Num.

Import Num.

Declare Scope num_scope.
Delimit Scope num_scope with num.
Bind Scope num_scope with num.
Infix "+" := Num.add : num_scope.
Infix "-" := Num.sub : num_scope.
Infix "*" := Num.mul : num_scope.
Infix "/" := Num.div : num_scope.
Infix "%%" := Num.rem (at level 40, left associativity) : num_scope.
Infix "<?" := Num.ltb : num_scope.
Infix ">?" := Num.gtb : num_scope.
Coercion Num.of_Z : Z >-> num.

(** ** Colour points and the metrics *)

Definition ColorPoint : Type := (Z * Z * Z)%type.

(** The three channels as the array the code maps and spreads. *)
Definition channels (point : ColorPoint) : list Z :=
  let '(r, g, b) := point in [r; g; b].

(** A point of the data model: every channel within [0, 255]. *)
Definition in_gamut (point : ColorPoint) : Prop :=
  let '(r, g, b) := point in
  0 <= r <= 255 /\ 0 <= g <= 255 /\ 0 <= b <= 255.

Definition max_channel (point : ColorPoint) : Z :=
  let '(r, g, b) := point in Z.max r (Z.max g b).

Definition min_channel (point : ColorPoint) : Z :=
  let '(r, g, b) := point in Z.min r (Z.min g b).

(** [getHue]: the hue in degrees. *)
Definition getHue (point : ColorPoint) : num :=
  let '(r, g, b) := point in
  let max := Z.max r (Z.max g b) in
  let min := Z.min r (Z.min g b) in
  if max =? min then of_Z 0
  else
    let delta := max - min in
    let hue :=
      if max =? r then ((of_Z (g - b) / of_Z delta) %% of_Z 6)%num
      else if max =? g then (of_Z (b - r) / of_Z delta + of_Z 2)%num
      else (of_Z (r - g) / of_Z delta + of_Z 4)%num in
    let hue := Num.round (hue * of_Z 60)%num in
    if (hue <? of_Z 0)%num then (hue + of_Z 360)%num else hue.

(** [getSaturation]: [(V - m) / V] over the channels divided by 255. *)
Definition getSaturation (point : ColorPoint) : num :=
  let rgb := map (fun c : Z => (of_Z c / of_Z 255)%num) (channels point) in
  let m := Num.min_list rgb in
  let V := Num.max_list rgb in
  ((V - m) / V)%num.

(** A channel divided by 255, as [Num.div] computes it. *)
Definition scaled (c : Z) : Q := Qred (inject_Z c / inject_Z 255).

(** The divisor of [getSaturation]. *)
Definition saturation_divisor (point : ColorPoint) : num :=
  Num.max_list (map (fun c : Z => (of_Z c / of_Z 255)%num) (channels point)).

(** [getValue]: the largest channel as a percentage. *)
Definition getValue (point : ColorPoint) : num :=
  (Num.max_list (map Num.of_Z (channels point)) / of_Z 255 * of_Z 100)%num.

(** ** Monochromatic expansion *)

Definition HSV : Type := (num * num * num)%type.

Definition hsv_hue (p : HSV) : num := fst (fst p).
Definition hsv_saturation (p : HSV) : num := snd (fst p).
Definition hsv_value (p : HSV) : num := snd p.

(** The indices [0, 1, ..., n-1] an ascending [for] loop visits. *)
Definition upto (n : Z) : list Z := map Z.of_nat (seq 0 (Z.to_nat n)).

(** The indices [n-1, ..., 1, 0] a descending [for] loop visits. *)
Definition downfrom (n : Z) : list Z := rev (upto n).

(** The array [hsv_points] of [getMonochromaticColors] as it stands before
    the final conversion. *)
Definition monochromaticHsv (point : ColorPoint) (step : Z) : list HSV :=
  let hue := getHue point in
  let saturation := getSaturation point in
  let value := getValue point in
  let clip_n := step + 1 in
  let clip00 := Num.round (saturation / of_Z clip_n)%num in
  let clip01 := Num.round ((of_Z 100 - value) / of_Z clip_n)%num in
  let clip10 := Num.round ((of_Z 100 - saturation) / of_Z clip_n)%num in
  let clip11 := Num.round (value / of_Z clip_n)%num in
  map (fun i : Z => (hue, of_Z i * clip00, of_Z 100 - of_Z i * clip01)%num)
      (upto clip_n)
  ++ [(hue, saturation, value)]
  ++ map (fun i : Z => (hue, of_Z 100 - of_Z i * clip10, of_Z i * clip11)%num)
         (downfrom clip_n).

Section Monochromatic.

(** The conversion imported from [./utils]: an opaque collaborator. *)
Variable RGB : Type.
Variable hsvToRgb : num -> num -> num -> RGB.

Definition getMonochromaticColors (point : ColorPoint) (step : Z) : list RGB :=
  map (fun p : HSV => hsvToRgb (hsv_hue p) (hsv_saturation p) (hsv_value p))
      (monochromaticHsv point step).

End Monochromatic.

(** ** Sorting an array in place

    [Array.prototype.sort(comparefn)] reorders the array it is called on and
    returns that same array.  ECMAScript leaves the algorithm to the engine;
    it is modelled as the sort of V8, the engine of Node.js 20, which the
    workflow of the repository installs.  V8 looks for the run the array
    starts with: it calls [comparefn(a[1], a[0])], takes the run to be
    descending when the answer is negative, and extends it while the answers
    to [comparefn(a[i], a[i-1])] stay negative (descending run) or stay
    non-negative (ascending run); a descending run is reversed.  Each later
    element is then put into the run by a binary search that calls
    [comparefn(pivot, a[mid])] and goes on in the left half when the answer
    is negative, in the right half otherwise.  An answer of [NaN] counts
    as 0.

    This is the whole of V8's algorithm on an array of fewer than 64
    elements.  A longer array V8 cuts into several such runs, which it
    merges; with a comparator that answers by an order of the elements the
    outcome is the same array, the only sorted and stable one.  The model
    makes one run of an array of any length.

    The comparator may consult a state (the random oracle), which the sort
    threads through its calls in order. *)

(** The comparator's answer as the engine reads it: [NaN] counts as 0. *)
Definition sort_order (v : num) : num :=
  match v with
  | NaN => of_Z 0
  | _ => v
  end.

Section ArraySort.

Variables (A St : Type).
Variable comparefn : A -> A -> St -> num * St.

(** The call of the comparator by the engine. *)
Definition call_compare (x y : A) (s : St) : num * St :=
  let '(v, s1) := comparefn x y s in (sort_order v, s1).

(** The run after its first two elements: [(run, remaining)], where [run]
    are the elements that extend it and [remaining] starts with the element
    at which the loop broke off. *)
Fixpoint extend_run (isDescending : bool) (previousElement : A)
    (rest : list A) (s : St) : list A * list A * St :=
  match rest with
  | [] => ([], [], s)
  | currentElement :: rest' =>
      let '(order, s1) := call_compare currentElement previousElement s in
      if (if isDescending then negb (order <? of_Z 0)%num
          else (order <? of_Z 0)%num)
      then ([], rest, s1)
      else
        let '(run, remaining, s2) :=
          extend_run isDescending currentElement rest' s1 in
        (currentElement :: run, remaining, s2)
  end.

(** The binary search for the place of [pivot] within [work[left..right)];
    [fuel] bounds the number of halvings. *)
Fixpoint find_place (fuel : nat) (pivot : A) (work : list A)
    (left right : nat) (s : St) : nat * St :=
  match fuel with
  | O => (left, s)
  | S fuel' =>
      if (left <? right)%nat then
        let mid := (left + Nat.div2 (right - left))%nat in
        match nth_error work mid with
        | None => (left, s)
        | Some element =>
            let '(order, s1) := call_compare pivot element s in
            if (order <? of_Z 0)%num
            then find_place fuel' pivot work left mid s1
            else find_place fuel' pivot work (S mid) right s1
        end
      else (left, s)
  end.

(** [sorted] is [a[0..start-1]]; the elements of [todo] are inserted in
    turn. *)
Fixpoint binary_insertion (sorted todo : list A) (s : St) : list A * St :=
  match todo with
  | [] => (sorted, s)
  | pivot :: rest =>
      let '(place, s1) :=
        find_place (length sorted) pivot sorted 0 (length sorted) s in
      binary_insertion (firstn place sorted ++ pivot :: skipn place sorted)
        rest s1
  end.

Definition array_sort (a : list A) (s : St) : list A * St :=
  match a with
  | first :: second :: rest =>
      let '(order, s1) := call_compare second first s in
      let isDescending := (order <? of_Z 0)%num in
      let '(run, remaining, s2) := extend_run isDescending second rest s1 in
      let whole := first :: second :: run in
      binary_insertion (if isDescending then rev whole else whole)
        remaining s2
  | _ => (a, s)
  end.

End ArraySort.

(** [sortColor]: the array [points] after the call, which is also the value
    returned. *)
Definition sortColor (points : list ColorPoint) (order : bool)
    (algorithm : ColorPoint -> num) : list ColorPoint :=
  fst (array_sort
         (fun a b (s : unit) =>
            (if order then (algorithm a - algorithm b)%num
             else (algorithm b - algorithm a)%num, s))
         points tt).

(** ** Euclidean distance *)

(** The radicand of [euclideanDistance]: an integer on integer points. *)
Definition sqdist (point1 point2 : ColorPoint) : Z :=
  let '(r1, g1, b1) := point1 in
  let '(r2, g2, b2) := point2 in
  (r1 - r2) ^ 2 + (g1 - g2) ^ 2 + (b1 - b2) ^ 2.

(** [euclideanDistance]: the real number of which the code computes the
    binary64 rounding. *)
Definition euclideanDistance (point1 point2 : ColorPoint) : R :=
  sqrt (IZR (sqdist point1 point2)).

(** [getBrightness]: the distance to black. *)
Definition getBrightness (point : ColorPoint) : R :=
  euclideanDistance point (0, 0, 0).

(** ** Clustering *)

(** An array slot: a point, or [undefined] ([None]). *)
Abbreviation Slot := (option ColorPoint) (only parsing).

Inductive outcome (A : Type) : Type :=
| Ok (a : A)
| Throw
| OutOfFuel.

Arguments Ok {A} a.
Arguments Throw {A}.
Arguments OutOfFuel {A}.

(** What a run of [kmeans] does, recorded as it goes (a ghost log). *)
Inductive event : Type :=
| Initialized (centers : list Slot)
| PassBegun
| Assigned (centers : list Slot) (clusters : list (list ColorPoint))
| Updated (centers : list Slot).

(** [draws]: how many times [Math.random()] has been called;
    [trace]: the events so far, the latest first. *)
Record state : Type := { draws : nat; trace : list event }.

Definition M (A : Type) : Type := state -> outcome A * state.

Definition ret {A} (a : A) : M A := fun s => (Ok a, s).

Definition bind {A B} (m : M A) (f : A -> M B) : M B :=
  fun s =>
    match m s with
    | (Ok a, s') => f a s'
    | (Throw, s') => (Throw, s')
    | (OutOfFuel, s') => (OutOfFuel, s')
    end.

Definition lift {A} (o : outcome A) : M A := fun s => (o, s).

Definition emit (e : event) : M unit :=
  fun s => (Ok tt, {| draws := draws s; trace := e :: trace s |}).

Notation "x <- m ;; f" := (bind m (fun x => f))
  (at level 61, m at next level, right associativity).
Notation "m ;;; f" := (bind m (fun _ => f))
  (at level 61, right associativity).

Fixpoint mapM {A B} (f : A -> M B) (l : list A) : M (list B) :=
  match l with
  | [] => ret []
  | a :: rest => b <- f a ;; bs <- mapM f rest ;; ret (b :: bs)
  end.

Fixpoint map_outcome {A B} (f : A -> outcome B) (l : list A)
  : outcome (list B) :=
  match l with
  | [] => Ok []
  | a :: rest =>
      match f a with
      | Ok b => match map_outcome f rest with
                | Ok bs => Ok (b :: bs)
                | Throw => Throw
                | OutOfFuel => OutOfFuel
                end
      | Throw => Throw
      | OutOfFuel => OutOfFuel
      end
  end.

(** Reading a channel of [undefined] throws. *)
Definition defined (c : Slot) : outcome ColorPoint :=
  match c with Some p => Ok p | None => Throw end.

(** The loop of [isConverged] from index [i] on; [pending] is
    [old_centers] from that index. *)
Fixpoint converged_from (pending : list ColorPoint) (i : nat)
    (new_centers : list Slot) : outcome bool :=
  match pending with
  | [] => Ok true
  | old :: rest =>
      match nth i new_centers None with
      | None => Throw
      | Some c =>
          (* [Math.sqrt(d) > 1] is [d > 1] on an integer [d] *)
          if 1 <? sqdist old c then Ok false
          else converged_from rest (S i) new_centers
      end
  end.

Definition isConverged (old_centers : list ColorPoint)
    (new_centers : list Slot) : outcome bool :=
  match old_centers with
  | [] => Ok false
  | _ => converged_from old_centers 0 new_centers
  end.

(** [Math.min(...distances)]; [None] stands for the [Infinity] of no
    argument.  The distances are compared through their squares, on which
    [Math.sqrt] is strictly increasing. *)
Definition min_distance (distances : list Z) : option Z :=
  match distances with
  | [] => None
  | d :: rest => Some (fold_left Z.min rest d)
  end.

(** [distances.indexOf(x)]; [None] stands for [-1]. *)
Fixpoint indexOf (distances : list Z) (x : Z) : option nat :=
  match distances with
  | [] => None
  | d :: rest =>
      if d =? x then Some O
      else match indexOf rest x with
           | Some i => Some (S i)
           | None => None
           end
  end.

Definition target_index (distances : list Z) : option nat :=
  match min_distance distances with
  | Some m => indexOf distances m
  | None => None
  end.

(** [clusters[i].push(pixel)]; throws when [clusters[i]] is [undefined]. *)
Fixpoint push_at (clusters : list (list ColorPoint)) (i : nat)
    (pixel : ColorPoint) : outcome (list (list ColorPoint)) :=
  match clusters, i with
  | [], _ => Throw
  | c :: rest, O => Ok ((c ++ [pixel]) :: rest)
  | c :: rest, S j =>
      match push_at rest j pixel with
      | Ok rest' => Ok (c :: rest')
      | Throw => Throw
      | OutOfFuel => OutOfFuel
      end
  end.

(** The distances of one pixel to the centers, in the order of the centers. *)
Definition distances_to (centers : list Slot) (pixel : ColorPoint)
  : outcome (list Z) :=
  map_outcome
    (fun point =>
       match defined point with
       | Ok p => Ok (sqdist p pixel)
       | Throw => Throw
       | OutOfFuel => OutOfFuel
       end)
    centers.

(** One turn of the [forEach] of the assignment step. *)
Definition assign_pixel (centers : list Slot)
    (clusters : list (list ColorPoint)) (pixel : ColorPoint)
  : outcome (list (list ColorPoint)) :=
  match distances_to centers pixel with
  | Ok distances =>
      match target_index distances with
      | Some t => push_at clusters t pixel
      | None => Throw
      end
  | Throw => Throw
  | OutOfFuel => OutOfFuel
  end.

Fixpoint assign_all (centers : list Slot) (pixels : list ColorPoint)
    (clusters : list (list ColorPoint)) : outcome (list (list ColorPoint)) :=
  match pixels with
  | [] => Ok clusters
  | pixel :: rest =>
      match assign_pixel centers clusters pixel with
      | Ok clusters' => assign_all centers rest clusters'
      | Throw => Throw
      | OutOfFuel => OutOfFuel
      end
  end.

Definition add3 (acc val : ColorPoint) : ColorPoint :=
  let '(a0, a1, a2) := acc in
  let '(v0, v1, v2) := val in
  (a0 + v0, a1 + v1, a2 + v2).

(** [Math.round(x / n)] on integers [x] and [n]. *)
Definition round_div (x n : Z) : Z :=
  Qfloor (inject_Z x / inject_Z n + (1 # 2)).

(** The rounded mean of a non-empty cluster. *)
Definition centroid (points : list ColorPoint) : ColorPoint :=
  let '(s0, s1, s2) := fold_left add3 points (0, 0, 0) in
  let n := Z.of_nat (length points) in
  (round_div s0 n, round_div s1 n, round_div s2 n).

(** [a[i]] for a number [i]: [undefined] out of range. *)
Definition array_get (a : list ColorPoint) (i : Z) : Slot :=
  if i <? 0 then None else nth_error a (Z.to_nat i).

Definition initial_state : state := {| draws := O; trace := [] |}.

Section Kmeans.

(** [rnd n] is what the [n]-th call of [Math.random()] returns. *)
Variable rnd : nat -> Q.

Definition random : M Q :=
  fun s => (Ok (rnd (draws s)),
            {| draws := S (draws s); trace := trace s |}).

(** The comparator [() => 0.5 - Math.random()]. *)
Definition shuffle_compare (_ _ : ColorPoint) (s : state) : num * state :=
  ((Fin (1 # 2) - Fin (rnd (draws s)))%num,
   {| draws := S (draws s); trace := trace s |}).

(** The callback of [clusters.map] in the update step. *)
Definition new_center (pixels_array : list ColorPoint)
    (points : list ColorPoint) : M Slot :=
  match points with
  | [] =>
      r <- random ;;
      ret (array_get pixels_array
             (Qfloor (r * inject_Z (Z.of_nat (length pixels_array)))))
  | _ => ret (Some (centroid points))
  end.

(** The body of the [while] loop: the snapshot of the centers (spreading
    an [undefined] center throws), the assignment step and the update
    step.  It yields the new [old_centers] and the new [centers]. *)
Definition kmeans_pass (pixels_array : list ColorPoint) (k : nat)
    (centers : list Slot) : M (list ColorPoint * list Slot) :=
  emit PassBegun ;;;
  old_centers <- lift (map_outcome defined centers) ;;
  clusters <- lift (assign_all centers pixels_array (repeat [] k)) ;;
  emit (Assigned centers clusters) ;;;
  centers' <- mapM (new_center pixels_array) clusters ;;
  emit (Updated centers') ;;;
  ret (old_centers, centers').

(** The [while] loop; [fuel] bounds the number of times its test is
    evaluated. *)
Fixpoint kmeans_loop (fuel : nat) (pixels_array : list ColorPoint)
    (k : nat) (max_iterations : Z) (centers : list Slot)
    (old_centers : list ColorPoint) (iterations : Z) : M (list Slot) :=
  match fuel with
  | O => lift OutOfFuel
  | S fuel' =>
      converged <- lift (isConverged old_centers centers) ;;
      if converged then ret centers
      else if iterations <=? max_iterations then
        next <- kmeans_pass pixels_array k centers ;;
        kmeans_loop fuel' pixels_array k max_iterations (snd next)
          (fst next) (iterations + 1)
      else ret centers
  end.

(** [kmeans]: the centers returned, paired with the caller's array
    [pixels_array] as the call leaves it. *)
Definition kmeans (fuel : nat) (pixels_array : list ColorPoint) (k : nat)
    (max_iterations : Z) : M (list Slot * list ColorPoint) :=
  fun s =>
    let '(sorted, s1) := array_sort shuffle_compare pixels_array s in
    (let centers := map Some (firstn k sorted) in
     emit (Initialized centers) ;;;
     result <- kmeans_loop fuel sorted k max_iterations centers [] 0 ;;
     ret (result, sorted)) s1.

(** The array as the shuffle leaves it. *)
Definition shuffled (pixels : list ColorPoint) (s : state) : list ColorPoint :=
  fst (array_sort shuffle_compare pixels s).

(** The state in which the loop starts. *)
Definition loop_start (pixels : list ColorPoint) (k : nat) (s : state)
  : state :=
  {| draws := draws (snd (array_sort shuffle_compare pixels s));
     trace := Initialized (map Some (firstn k (shuffled pixels s)))
                :: trace s |}.

End Kmeans.

(** The index of the cluster a pixel goes to under the given centers. *)
Definition nearest (centers : list Slot) (pixel : ColorPoint) : option nat :=
  match distances_to centers pixel with
  | Ok distances => target_index distances
  | _ => None
  end.

Definition assigned_to (centers : list Slot) (i : nat) (pixel : ColorPoint)
  : bool :=
  match nearest centers pixel with
  | Some t => Nat.eqb t i
  | None => false
  end.

(** The number of assignment/update passes a trace has begun. *)
Definition passes (t : list event) : nat :=
  length (filter (fun e => match e with PassBegun => true | _ => false end) t).

(** [no_lighter a b]: the HSV value of [a] is at most that of [b]. *)
Definition no_lighter (a b : HSV) : Prop :=
  Num.leb (hsv_value a) (hsv_value b) = true.

(** A gradient running from dark to light through the element at index
    [mid]: whatever comes before it is no lighter than it, whatever comes
    after it is no darker. *)
Definition dark_to_light (l : list HSV) (mid : nat) : Prop :=
  forall i e m,
    nth_error l i = Some e -> nth_error l mid = Some m ->
    ((i < mid)%nat -> no_lighter e m) /\ ((mid < i)%nat -> no_lighter m e).

(** A run of colours none of which is lighter than an earlier one. *)
Definition fading (l : list HSV) : Prop :=
  StronglySorted (fun a b => no_lighter b a) l.

(** A sequence along which [metric] never decreases, respectively never
    increases, from one element to the next. *)
Definition ascending (metric : ColorPoint -> num) (l : list ColorPoint) : Prop :=
  Sorted (fun a b => Num.leb (metric a) (metric b) = true) l.

Definition descending (metric : ColorPoint -> num) (l : list ColorPoint) : Prop :=
  Sorted (fun a b => Num.leb (metric b) (metric a) = true) l.

(** What the events logged by the loop over the array [pixels] with [k]
    clusters record: an assignment step that ran to its end on the centers
    it names, and a list of [k] new centers. *)
Definition pass_event (pixels : list ColorPoint) (k : nat) (e : event) : Prop :=
  match e with
  | Initialized _ => False
  | PassBegun => True
  | Assigned centers clusters =>
      assign_all centers pixels (repeat [] k) = Ok clusters
  | Updated centers => length centers = k
  end.

(** The values [Math.random()] can return. *)
Definition unit_interval (rnd : nat -> Q) : Prop :=
  forall n, (0 <= rnd n)%Q /\ (rnd n < 1)%Q.

(** ** Relative luminance *)

Section Luminance.

(** [Math.pow], which the gamma branch calls with the exponent 2.4. *)
Variable Math_pow : num -> num -> num.

(** The callback of [point.map] in [getLuminance]. *)
Definition linear_channel (val : Z) : num :=
  let s_val := (of_Z val / of_Z 255)%num in
  if Num.leb s_val (Fin (3928 # 100000))
  then (s_val / Fin (1292 # 100))%num
  else Math_pow ((s_val + Fin (55 # 1000)) / Fin (1055 # 1000))%num
         (Fin (24 # 10)).

(** [getLuminance]: the weighted sum of the three linearized channels. *)
Definition getLuminance (point : ColorPoint) : num :=
  let '(r, g, b) := point in
  let LR := linear_channel r in
  let LG := linear_channel g in
  let LB := linear_channel b in
  (Fin (2126 # 10000) * LR + Fin (7152 # 10000) * LG
   + Fin (722 # 10000) * LB)%num.

End Luminance.

(** ** Vocabulary of the further properties *)

(** Every channel of the point lies within [lo, hi]. *)
Definition in_box (lo hi : Z) (point : ColorPoint) : Prop :=
  let '(r, g, b) := point in
  lo <= r <= hi /\ lo <= g <= hi /\ lo <= b <= hi.

(** The sum of one channel over a list of points. *)
Definition channel_sum (channel : ColorPoint -> Z) (points : list ColorPoint)
  : Z :=
  fold_right (fun p acc => channel p + acc) 0 points.

Definition red (point : ColorPoint) : Z := fst (fst point).
Definition green (point : ColorPoint) : Z := snd (fst point).
Definition blue (point : ColorPoint) : Z := snd point.

(** What the update step may put at the place of a cluster: the centroid
    of a non-empty cluster; for an empty one an element of the pixel array,
    or [undefined]. *)
Definition updated_from (pixels : list ColorPoint)
    (points : list ColorPoint) (center : Slot) : Prop :=
  match points with
  | [] => center = None \/ exists p, center = Some p /\ In p pixels
  | _ => center = Some (centroid points)
  end.

(** A center that is a point, not [undefined], and satisfies [Inv]. *)
Definition slot_satisfies (Inv : ColorPoint -> Prop) (center : Slot) : Prop :=
  match center with
  | Some p => Inv p
  | None => False
  end.

(** The pair at index [j] of the two lists of centers is within distance
    1; [offset] is where [pending] starts in [old_centers]. *)
Definition close_pair (pending : list ColorPoint) (offset : nat)
    (new_centers : list Slot) (j : nat) : Prop :=
  exists o c,
    nth_error pending j = Some o
    /\ nth_error new_centers (offset + j) = Some (Some c)
    /\ (euclideanDistance o c <= 1)%R.

(** * Properties *)

(** ** The monochromatic expansion: shape *)

Lemma upto_length (n : Z) : length (upto n) = Z.to_nat n.
Proof. unfold upto. now rewrite length_map, length_seq. Qed.

Lemma downfrom_length (n : Z) : length (downfrom n) = Z.to_nat n.
Proof. unfold downfrom. now rewrite length_rev, upto_length. Qed.

Lemma monochromaticHsv_length (point : ColorPoint) (step : Z) :
  length (monochromaticHsv point step)
  = (Z.to_nat (step + 1) + 1 + Z.to_nat (step + 1))%nat.
Proof.
  unfold monochromaticHsv.
  rewrite !length_app, !length_map, upto_length, downfrom_length.
  simpl. lia.
Qed.

Lemma monochromaticHsv_middle (point : ColorPoint) (step : Z) :
  nth_error (monochromaticHsv point step) (Z.to_nat (step + 1))
  = Some (getHue point, getSaturation point, getValue point).
Proof.
  unfold monochromaticHsv.
  rewrite nth_error_app2; rewrite length_map, upto_length; [|lia].
  now rewrite Nat.sub_diag.
Qed.

(** C6. For every point and every non-negative [step],
    [getMonochromaticColors] returns exactly [2*(step+1)+1] colours, and the
    one at index [step+1] is the conversion of the point's own hue,
    saturation and value. *)
Theorem getMonochromaticColors_length_and_middle
    (RGB : Type) (hsvToRgb : num -> num -> num -> RGB)
    (point : ColorPoint) (step : Z) (Hstep : 0 <= step) :
  Z.of_nat (length (getMonochromaticColors hsvToRgb point step))
  = 2 * (step + 1) + 1
  /\ nth_error (getMonochromaticColors hsvToRgb point step)
       (Z.to_nat (step + 1))
     = Some (hsvToRgb (getHue point) (getSaturation point) (getValue point)).
Proof.
  unfold getMonochromaticColors. split.
  - rewrite length_map, monochromaticHsv_length. lia.
  - rewrite nth_error_map, monochromaticHsv_middle. reflexivity.
Qed.

Lemma getMonochromaticColors_length_and_middle_witness :
  0 <= 3
  /\ Z.of_nat (length (getMonochromaticColors
                         (fun h s v => (h, s, v)) (128, 64, 64) 3)) = 9
  /\ nth_error (getMonochromaticColors (fun h s v => (h, s, v)) (128, 64, 64) 3)
       4%nat
     = Some (Fin 0, Fin (1 # 2), Fin (2560 # 51)).
Proof.
  split; [lia|].
  exact (getMonochromaticColors_length_and_middle
           (fun h s v => (h, s, v)) (128, 64, 64) (step := 3) ltac:(lia)).
Defined.

(** ** Facts about numbers *)

Lemma Qle_bool_inject_Z (x y : Z) :
  Qle_bool (inject_Z x) (inject_Z y) = (x <=? y).
Proof.
  unfold Qle_bool, inject_Z. simpl. now rewrite !Z.mul_1_r.
Qed.

Lemma scaled_eq (c : Z) : scaled c == c # 255.
Proof.
  unfold scaled. rewrite Qred_correct.
  unfold Qeq, Qdiv, Qmult, Qinv, inject_Z. simpl. lia.
Qed.

Lemma Qle_bool_scaled (x y : Z) :
  Qle_bool (scaled x) (scaled y) = (x <=? y).
Proof.
  apply eq_true_iff_eq. rewrite Qle_bool_iff, !scaled_eq, Z.leb_le.
  unfold Qle. simpl. lia.
Qed.

Lemma is_zero_Qred (q : Q) : Num.is_zero (Qred q) = Num.is_zero q.
Proof.
  unfold Num.is_zero. pose proof (Qred_correct q) as H. unfold Qeq in H.
  destruct (Z.eqb_spec (Qnum q) 0) as [E|E].
  - rewrite E in H. apply Z.eqb_eq. nia.
  - apply Z.eqb_neq. intro E'. rewrite E' in H. nia.
Qed.

Lemma is_zero_scaled (c : Z) : Num.is_zero (scaled c) = (c =? 0).
Proof.
  unfold scaled. rewrite is_zero_Qred. unfold Num.is_zero. simpl.
  now rewrite Z.mul_1_r.
Qed.

Section Extremes.

Variable g : Z -> Q.
Hypothesis g_order : forall x y, Qle_bool (g x) (g y) = (x <=? y).

Lemma max_list_three (r gr b : Z) :
  Num.max_list (map (fun c => Fin (g c)) [r; gr; b])
  = Fin (g (Z.max r (Z.max gr b))).
Proof.
  unfold Num.max_list. simpl. unfold Num.ltb. rewrite !g_order.
  destruct (Z.leb_spec gr r); simpl; rewrite g_order;
    destruct (Z.leb_spec b r), (Z.leb_spec b gr); simpl;
    do 2 f_equal; lia.
Qed.

Lemma min_list_three (r gr b : Z) :
  Num.min_list (map (fun c => Fin (g c)) [r; gr; b])
  = Fin (g (Z.min r (Z.min gr b))).
Proof.
  unfold Num.min_list. simpl. unfold Num.ltb. rewrite !g_order.
  destruct (Z.leb_spec r gr); simpl; rewrite g_order;
    destruct (Z.leb_spec r b), (Z.leb_spec gr b); simpl;
    do 2 f_equal; lia.
Qed.

End Extremes.

Lemma saturation_divisor_eq (point : ColorPoint) :
  saturation_divisor point = Fin (scaled (max_channel point)).
Proof.
  destruct point as [[r gr] b]. unfold saturation_divisor, channels.
  exact (max_list_three scaled Qle_bool_scaled r gr b).
Qed.

Lemma getSaturation_unfold (point : ColorPoint) :
  getSaturation point
  = ((Fin (scaled (max_channel point)) - Fin (scaled (min_channel point)))
     / Fin (scaled (max_channel point)))%num.
Proof.
  destruct point as [[r gr] b]. unfold getSaturation, channels.
  change (map (fun c : Z => (of_Z c / of_Z 255)%num) [r; gr; b])
    with (map (fun c => Fin (scaled c)) [r; gr; b]).
  rewrite (max_list_three scaled Qle_bool_scaled),
          (min_list_three scaled Qle_bool_scaled).
  reflexivity.
Qed.

Lemma in_gamut_extremes (point : ColorPoint) :
  in_gamut point ->
  0 <= min_channel point <= max_channel point /\ max_channel point <= 255.
Proof.
  destruct point as [[r gr] b]. unfold in_gamut, min_channel, max_channel.
  lia.
Qed.

Lemma in_gamut_black (point : ColorPoint) :
  in_gamut point -> max_channel point = 0 -> point = (0, 0, 0).
Proof.
  destruct point as [[r gr] b]. unfold in_gamut, max_channel. intros.
  repeat f_equal; lia.
Qed.

(** The saturation of a point that is not black, as a fraction. *)
Lemma getSaturation_value (point : ColorPoint) :
  0 < max_channel point ->
  exists q, getSaturation point = Fin q
            /\ q == inject_Z (max_channel point - min_channel point)
                    / inject_Z (max_channel point).
Proof.
  intros Hpos. rewrite getSaturation_unfold.
  set (mx := max_channel point) in *. set (mn := min_channel point).
  unfold Num.sub, Num.neg, Num.add, Num.div.
  rewrite is_zero_scaled.
  destruct (Z.eqb_spec mx 0) as [E|_]; [lia|].
  eexists. split; [reflexivity|].
  rewrite !Qred_correct, !scaled_eq, !Qmake_Qdiv.
  unfold Z.sub. rewrite inject_Z_plus, inject_Z_opp.
  assert (Hmx : ~ inject_Z mx == 0).
  { unfold Qeq, inject_Z. simpl. lia. }
  field. exact Hmx.
Qed.

(** ** Saturation *)

(** C9. On a point of the data model, [getSaturation] is a quotient whose
    divisor is zero exactly when the largest channel is 0, and the result
    is then [NaN];
    when the largest channel is positive the divisor is not zero and the
    result is an ordinary number. *)
Theorem getSaturation_division_by_zero
    (point : ColorPoint) (Hgamut : in_gamut point) :
  (exists dividend,
      getSaturation point = (dividend / saturation_divisor point)%num)
  /\ (saturation_divisor point = of_Z 0 <-> max_channel point = 0)
  /\ (getSaturation point = NaN <-> max_channel point = 0)
  /\ (0 < max_channel point ->
      (exists v, saturation_divisor point = Fin v /\ ~ v == 0)
      /\ exists q, getSaturation point = Fin q).
Proof.
  pose proof (in_gamut_extremes point Hgamut) as Hext.
  assert (Hdiv : saturation_divisor point = of_Z 0 <-> max_channel point = 0).
  { rewrite saturation_divisor_eq. split.
    - intros E. injection E as E.
      pose proof (is_zero_scaled (max_channel point)) as Hz.
      rewrite E in Hz. symmetry in Hz. now apply Z.eqb_eq in Hz.
    - intros E. rewrite E. reflexivity. }
  split; [eexists; reflexivity|].
  split; [exact Hdiv|]. split.
  - split.
    + intros E. destruct (Z.eq_dec (max_channel point) 0) as [|Hne]; [easy|].
      destruct (getSaturation_value point) as (q & Hq & _); [lia|].
      congruence.
    + intros E. now rewrite (in_gamut_black point Hgamut E).
  - intros Hpos. split.
    + exists (scaled (max_channel point)). split.
      * apply saturation_divisor_eq.
      * rewrite scaled_eq. unfold Qeq. simpl. lia.
    + destruct (getSaturation_value point Hpos) as (q & Hq & _). now exists q.
Qed.

Lemma getSaturation_division_by_zero_witness :
  in_gamut (0, 0, 0) /\ getSaturation (0, 0, 0) = NaN.
Proof.
  assert (H : in_gamut (0, 0, 0)) by (simpl; lia).
  split; [exact H|].
  apply (proj2 (proj1 (proj2 (proj2
           (getSaturation_division_by_zero (0, 0, 0) H))))).
  reflexivity.
Defined.

(** C10. On a point of the data model whose largest channel is positive,
    [getSaturation] is [(V - m) / V] for [V] and [m] the largest and the
    smallest channel divided by 255: a fraction between 0 and 1, not a
    percentage. *)
Theorem getSaturation_unit_fraction
    (point : ColorPoint) (Hgamut : in_gamut point)
    (Hpos : 0 < max_channel point) :
  exists q,
    getSaturation point = Fin q
    /\ q == (inject_Z (max_channel point) / inject_Z 255
             - inject_Z (min_channel point) / inject_Z 255)
            / (inject_Z (max_channel point) / inject_Z 255)
    /\ (0 <= q)%Q /\ (q <= 1)%Q.
Proof.
  pose proof (in_gamut_extremes point Hgamut) as Hext.
  destruct (getSaturation_value point Hpos) as (q & Hq & Hv).
  exists q. split; [exact Hq|].
  set (mx := max_channel point) in *. set (mn := min_channel point) in *.
  assert (Hmx : (0 < inject_Z mx)%Q).
  { unfold Qlt, inject_Z. simpl. lia. }
  assert (Hne : ~ inject_Z mx == 0).
  { intro E. rewrite E in Hmx. discriminate. }
  split.
  - rewrite Hv. unfold Z.sub. rewrite inject_Z_plus, inject_Z_opp.
    field. exact Hne.
  - rewrite Hv. split.
    + apply Qle_shift_div_l; [exact Hmx|].
      unfold Qle, inject_Z. simpl. lia.
    + apply Qle_shift_div_r; [exact Hmx|].
      rewrite Qmult_1_l. rewrite <- Zle_Qle. lia.
Qed.

Lemma getSaturation_unit_fraction_witness :
  exists q, getSaturation (128, 64, 64) = Fin q /\ (0 <= q)%Q /\ (q <= 1)%Q.
Proof.
  assert (Hg : in_gamut (128, 64, 64)) by (simpl; lia).
  assert (Hp : 0 < max_channel (128, 64, 64)) by (simpl; lia).
  destruct (getSaturation_unit_fraction (128, 64, 64) Hg Hp)
    as (q & Hq & _ & Hrange).
  exists q. split; [exact Hq | exact Hrange].
Defined.

(** ** The monochromatic expansion: order *)

Lemma StronglySorted_snoc (T : Type) (R : T -> T -> Prop) (l : list T) (a : T) :
  StronglySorted R l -> Forall (fun x => R x a) l ->
  StronglySorted R (l ++ [a]).
Proof.
  induction l as [|x l IH]; simpl; intros Hs Hall.
  - repeat constructor.
  - apply StronglySorted_inv in Hs. destruct Hs as [Hs Hx].
    inversion Hall; subst. constructor.
    + now apply IH.
    + apply Forall_app. split; [exact Hx | now constructor].
Qed.

Lemma StronglySorted_rev (T : Type) (R : T -> T -> Prop) (l : list T) :
  StronglySorted R l -> StronglySorted (fun a b => R b a) (rev l).
Proof.
  induction 1 as [|a l Hs IH Ha]; simpl.
  - constructor.
  - apply StronglySorted_snoc; [exact IH|].
    apply Forall_rev. exact Ha.
Qed.

Lemma StronglySorted_map_upto (T : Type) (R : T -> T -> Prop) (f : Z -> T)
    (n : Z) :
  (forall i j, 0 <= i <= j -> R (f i) (f j)) ->
  StronglySorted R (map f (upto n)).
Proof.
  intros HR. unfold upto. generalize (Z.to_nat n) as k. intros k.
  generalize O as s. induction k as [|k IH]; intros s; simpl.
  - constructor.
  - constructor; [apply IH|].
    apply Forall_forall. intros x Hx.
    apply in_map_iff in Hx. destruct Hx as (z & <- & Hz).
    apply in_map_iff in Hz. destruct Hz as (m & <- & Hm).
    apply in_seq in Hm. apply HR. lia.
Qed.

Lemma StronglySorted_map_downfrom (T : Type) (R : T -> T -> Prop)
    (f : Z -> T) (n : Z) :
  (forall i j, 0 <= i <= j -> R (f j) (f i)) ->
  StronglySorted R (map f (downfrom n)).
Proof.
  intros HR. unfold downfrom. rewrite map_rev.
  apply (StronglySorted_rev (R := fun a b => R b a)).
  now apply StronglySorted_map_upto.
Qed.

Lemma max_list_channels (point : ColorPoint) :
  Num.max_list (map Num.of_Z (channels point)) = of_Z (max_channel point).
Proof.
  destruct point as [[r gr] b]. unfold channels.
  exact (max_list_three inject_Z Qle_bool_inject_Z r gr b).
Qed.

Lemma getValue_range (point : ColorPoint) :
  in_gamut point ->
  exists v, getValue point = Fin v /\ (0 <= v)%Q /\ (v <= 100)%Q.
Proof.
  intros Hg. apply in_gamut_extremes in Hg.
  unfold getValue. rewrite max_list_channels.
  set (mx := max_channel point) in *.
  exists (Qred (scaled mx * inject_Z 100)). split; [reflexivity|].
  rewrite Qred_correct, scaled_eq.
  unfold Qle, Qmult, inject_Z. simpl. lia.
Qed.

(** A rounded quotient of a non-negative number by a positive integer is
    a non-negative integer. *)
Lemma round_div_nat (x : Q) (n : Z) :
  (0 <= x)%Q -> 0 < n ->
  exists c, Num.round (Fin x / of_Z n)%num = of_Z c /\ 0 <= c.
Proof.
  intros Hx Hn. unfold Num.div, of_Z, Num.is_zero. simpl Qnum.
  destruct (Z.eqb_spec n 0) as [E|_]; [lia|].
  eexists. split; [reflexivity|].
  rewrite <- (Qfloor_Z 0). apply Qfloor_resp_le.
  rewrite Qred_correct.
  assert (Hq : (0 <= x / inject_Z n)%Q).
  { apply Qle_shift_div_l.
    - unfold Qlt, inject_Z. simpl. lia.
    - now rewrite Qmult_0_l. }
  change (inject_Z 0) with (0 + 0)%Q.
  apply Qplus_le_compat; [exact Hq | discriminate].
Qed.

Lemma complement_nonneg (v : Q) :
  (v <= 100)%Q ->
  exists w, (of_Z 100 - Fin v)%num = Fin w /\ (0 <= w)%Q.
Proof.
  intros Hv. eexists. split; [reflexivity|].
  rewrite !Qred_correct.
  apply (Qplus_le_l _ _ v). ring_simplify. exact Hv.
Qed.

Lemma falling_values (c i j : Z) :
  0 <= c -> 0 <= i <= j ->
  Num.leb (of_Z 100 - of_Z j * of_Z c)%num (of_Z 100 - of_Z i * of_Z c)%num
  = true.
Proof.
  intros Hc Hij. unfold Num.sub, Num.mul, Num.neg, Num.add, of_Z, Num.leb.
  apply Qle_bool_iff. rewrite !Qred_correct.
  rewrite <- !inject_Z_mult, <- !inject_Z_opp, <- !inject_Z_plus, <- Zle_Qle.
  nia.
Qed.

Lemma rising_values (c i j : Z) :
  0 <= c -> 0 <= i <= j ->
  Num.leb (of_Z i * of_Z c)%num (of_Z j * of_Z c)%num = true.
Proof.
  intros Hc Hij. unfold Num.mul, of_Z, Num.leb.
  apply Qle_bool_iff. rewrite !Qred_correct.
  rewrite <- !inject_Z_mult, <- Zle_Qle.
  nia.
Qed.

Lemma upto_head (n : Z) :
  0 < n -> exists rest, upto n = 0 :: rest.
Proof.
  intros Hn. unfold upto.
  destruct (Z.to_nat n) as [|m] eqn:E; [lia|].
  simpl. eexists. reflexivity.
Qed.

(** C2, as the claim states it, fails: on the point (128, 64, 64) with
    [step = 0] the element before the middle is lighter than the original
    colour and the element after it is darker. *)
Lemma monochromatic_dark_to_light_counterexample :
  monochromaticHsv (128, 64, 64) 0
  = [(Fin 0, Fin 0, Fin 100);
     (Fin 0, Fin (1 # 2), Fin (2560 # 51));
     (Fin 0, Fin 100, Fin 0)]
  /\ ~ dark_to_light (monochromaticHsv (128, 64, 64) 0) 1.
Proof.
  split; [reflexivity|].
  intros H.
  destruct (H 0%nat (Fin 0, Fin 0, Fin 100)
              (Fin 0, Fin (1 # 2), Fin (2560 # 51))
              eq_refl eq_refl) as [Hbefore _].
  specialize (Hbefore ltac:(lia)). discriminate Hbefore.
Qed.

(** C2, amended. For every point of the data model and every non-negative
    [step], the HSV sequence behind [getMonochromaticColors] runs from
    light to dark: [step+1] elements that start at value 100 and never get
    lighter, then the point's own hue, saturation and value, then [step+1]
    elements that never get lighter and end at value 0; every element
    around the middle carries the hue of the point. *)
Theorem monochromatic_light_to_dark
    (point : ColorPoint) (step : Z)
    (Hgamut : in_gamut point) (Hstep : 0 <= step) :
  exists before after,
    monochromaticHsv point step
    = before ++ [(getHue point, getSaturation point, getValue point)] ++ after
    /\ length before = Z.to_nat (step + 1)
    /\ length after = Z.to_nat (step + 1)
    /\ Forall (fun e => hsv_hue e = getHue point) (before ++ after)
    /\ fading before
    /\ fading after
    /\ (exists e rest, before = e :: rest /\ hsv_value e = of_Z 100)
    /\ (exists front e, after = front ++ [e] /\ hsv_value e = of_Z 0).
Proof.
  destruct (getValue_range point Hgamut) as (v & Hv & Hv0 & Hv100).
  destruct (@complement_nonneg v Hv100) as (w & Hw & Hw0).
  destruct (@round_div_nat w (step + 1) Hw0 ltac:(lia)) as (c01 & Hc01 & Hc01pos).
  destruct (@round_div_nat v (step + 1) Hv0 ltac:(lia)) as (c11 & Hc11 & Hc11pos).
  unfold monochromaticHsv. rewrite Hv, Hw, Hc01, Hc11.
  eexists. eexists. split; [reflexivity|].
  split; [now rewrite length_map, upto_length|].
  split; [now rewrite length_map, downfrom_length|].
  split.
  { apply Forall_app. split; apply Forall_forall; intros e He;
      apply in_map_iff in He; destruct He as (i & <- & _); reflexivity. }
  split.
  { apply StronglySorted_map_upto. intros i j Hij.
    unfold no_lighter, hsv_value. cbn [snd]. now apply falling_values. }
  split.
  { apply StronglySorted_map_downfrom. intros i j Hij.
    unfold no_lighter, hsv_value. cbn [snd]. now apply rising_values. }
  destruct (@upto_head (step + 1) ltac:(lia)) as (rest & Hrest).
  split.
  - rewrite Hrest. cbn [map]. eexists. eexists. split; reflexivity.
  - unfold downfrom. rewrite Hrest. cbn [rev]. rewrite map_app. cbn [map].
    eexists. eexists. split; reflexivity.
Qed.

Lemma monochromatic_light_to_dark_witness :
  exists before after,
    monochromaticHsv (128, 64, 64) 3
    = before ++ [(getHue (128, 64, 64), getSaturation (128, 64, 64),
                  getValue (128, 64, 64))] ++ after
    /\ fading before /\ fading after.
Proof.
  assert (Hg : in_gamut (128, 64, 64)) by (simpl; lia).
  assert (Hs : 0 <= 3) by lia.
  destruct (@monochromatic_light_to_dark (128, 64, 64) 3 Hg Hs)
    as (before & after & Heq & _ & _ & _ & Hb & Ha & _).
  exists before, after. auto.
Defined.

(** ** Sorting *)

Section ArraySortFacts.

Variables (T St : Type).
Variable comparefn : T -> T -> St -> num * St.

(** The run and what remains make up the array, in its order. *)
Lemma extend_run_split (isDescending : bool) (rest : list T) (previous : T)
    (s : St) :
  fst (fst (extend_run comparefn isDescending previous rest s))
  ++ snd (fst (extend_run comparefn isDescending previous rest s)) = rest.
Proof.
  revert previous s. induction rest as [|current rest IH];
    intros previous s; cbn [extend_run].
  - reflexivity.
  - destruct (call_compare comparefn current previous s) as [order s1].
    destruct (if isDescending then negb (order <? of_Z 0)%num
              else (order <? of_Z 0)%num).
    + reflexivity.
    + specialize (IH current s1).
      destruct (extend_run comparefn isDescending current rest s1)
        as [[run remaining] s2].
      cbn [fst snd app] in *. now rewrite IH.
Qed.

Lemma binary_insertion_permutation (todo sorted : list T) (s : St) :
  Permutation (sorted ++ todo)
    (fst (binary_insertion comparefn sorted todo s)).
Proof.
  revert sorted s. induction todo as [|pivot rest IH]; intros sorted s;
    cbn [binary_insertion].
  - rewrite app_nil_r. apply Permutation_refl.
  - destruct (find_place comparefn (length sorted) pivot sorted 0
                (length sorted) s) as [place s1].
    eapply perm_trans; [|apply IH].
    rewrite <- app_assoc. cbn [app].
    rewrite <- (firstn_skipn place sorted) at 1. rewrite <- app_assoc.
    apply Permutation_app_head, Permutation_sym, Permutation_middle.
Qed.

(** The search needs no more halvings than the interval has elements: any
    [fuel] from there on gives the same place. *)
Lemma find_place_fuel (fuel fuel' : nat) (pivot : T) (work : list T)
    (left right : nat) (s : St) :
  (right - left <= fuel)%nat -> (right - left <= fuel')%nat ->
  find_place comparefn fuel pivot work left right s
  = find_place comparefn fuel' pivot work left right s.
Proof.
  revert fuel' left right s. induction fuel as [|fuel IH];
    intros [|fuel'] left right s Hfuel Hfuel'; cbn [find_place];
    try reflexivity.
  - destruct (left <? right)%nat eqn:Hlt; [|reflexivity].
    apply Nat.ltb_lt in Hlt. lia.
  - destruct (left <? right)%nat eqn:Hlt; [|reflexivity].
    apply Nat.ltb_lt in Hlt. lia.
  - destruct (left <? right)%nat eqn:Hlt; [|reflexivity].
    apply Nat.ltb_lt in Hlt.
    pose proof (@Nat.lt_div2 (right - left) ltac:(lia)) as Hhalf.
    revert Hhalf. generalize (Nat.div2 (right - left)). intros half Hhalf.
    destruct (nth_error work (left + half)) as [element|]; [|reflexivity].
    destruct (call_compare comparefn pivot element s) as [order s1].
    destruct (order <? of_Z 0)%num; apply IH; lia.
Qed.

(** Whatever the comparator answers, sorting only reorders the array. *)
Lemma array_sort_permutation (a : list T) (s : St) :
  Permutation a (fst (array_sort comparefn a s)).
Proof.
  destruct a as [|first [|second rest]]; try apply Permutation_refl.
  cbn [array_sort].
  destruct (call_compare comparefn second first s) as [order s1].
  pose proof (extend_run_split (order <? of_Z 0)%num rest second s1) as Hsplit.
  destruct (extend_run comparefn (order <? of_Z 0)%num second rest s1)
    as [[run remaining] s2].
  cbn [fst snd] in Hsplit.
  eapply perm_trans; [|apply binary_insertion_permutation].
  rewrite <- Hsplit. change (first :: second :: run ++ remaining)
    with ((first :: second :: run) ++ remaining).
  apply Permutation_app_tail.
  destruct (order <? of_Z 0)%num; [apply Permutation_rev|apply Permutation_refl].
Qed.

(** A part of the state that the comparator leaves alone is left alone by
    the sort. *)
Section View.

Variable U : Type.
Variable view : St -> U.
Hypothesis comparefn_view :
  forall x y s, view (snd (comparefn x y s)) = view s.

Lemma call_compare_view (x y : T) (s : St) :
  view (snd (call_compare comparefn x y s)) = view s.
Proof.
  unfold call_compare. pose proof (comparefn_view x y s) as H.
  destruct (comparefn x y s) as [v s1]. exact H.
Qed.

Lemma extend_run_view (isDescending : bool) (rest : list T) (previous : T)
    (s : St) :
  view (snd (extend_run comparefn isDescending previous rest s)) = view s.
Proof.
  revert previous s. induction rest as [|current rest IH];
    intros previous s; cbn [extend_run].
  - reflexivity.
  - pose proof (call_compare_view current previous s) as Hc.
    destruct (call_compare comparefn current previous s) as [order s1].
    cbn [snd] in Hc.
    destruct (if isDescending then negb (order <? of_Z 0)%num
              else (order <? of_Z 0)%num).
    + exact Hc.
    + specialize (IH current s1).
      destruct (extend_run comparefn isDescending current rest s1)
        as [[run remaining] s2].
      cbn [snd] in *. congruence.
Qed.

Lemma find_place_view (fuel : nat) (pivot : T) (work : list T)
    (left right : nat) (s : St) :
  view (snd (find_place comparefn fuel pivot work left right s)) = view s.
Proof.
  revert left right s. induction fuel as [|fuel IH]; intros left right s;
    cbn [find_place]; [reflexivity|].
  destruct (left <? right)%nat; [|reflexivity].
  destruct (nth_error work (left + Nat.div2 (right - left))) as [element|];
    [|reflexivity].
  pose proof (call_compare_view pivot element s) as Hc.
  destruct (call_compare comparefn pivot element s) as [order s1].
  cbn [snd] in Hc.
  destruct (order <? of_Z 0)%num; rewrite IH; exact Hc.
Qed.

Lemma binary_insertion_view (todo sorted : list T) (s : St) :
  view (snd (binary_insertion comparefn sorted todo s)) = view s.
Proof.
  revert sorted s. induction todo as [|pivot rest IH]; intros sorted s;
    cbn [binary_insertion]; [reflexivity|].
  pose proof (find_place_view (length sorted) pivot sorted 0 (length sorted) s)
    as Hf.
  destruct (find_place comparefn (length sorted) pivot sorted 0
              (length sorted) s) as [place s1].
  cbn [snd] in Hf. rewrite IH. exact Hf.
Qed.

Lemma array_sort_view (a : list T) (s : St) :
  view (snd (array_sort comparefn a s)) = view s.
Proof.
  destruct a as [|first [|second rest]]; try reflexivity.
  cbn [array_sort].
  pose proof (call_compare_view second first s) as Hc.
  destruct (call_compare comparefn second first s) as [order s1].
  cbn [snd] in Hc.
  pose proof (extend_run_view (order <? of_Z 0)%num rest second s1) as He.
  destruct (extend_run comparefn (order <? of_Z 0)%num second rest s1)
    as [[run remaining] s2].
  cbn [snd] in He. rewrite binary_insertion_view. congruence.
Qed.

End View.

(** An array in which no element asks to go before its left neighbour is
    returned as it is. *)
Lemma extend_run_in_order (rest : list T) (previous : T) (s : St) :
  Sorted (fun x y =>
            forall s', (fst (call_compare comparefn y x s') <? of_Z 0)%num
                       = false)
    (previous :: rest) ->
  fst (extend_run comparefn false previous rest s) = (rest, []).
Proof.
  revert previous s. induction rest as [|current rest IH];
    intros previous s Hs; cbn [extend_run].
  - reflexivity.
  - apply Sorted_inv in Hs. destruct Hs as [Hs Hhd].
    apply HdRel_inv in Hhd. specialize (Hhd s).
    destruct (call_compare comparefn current previous s) as [order s1].
    cbn [fst] in Hhd. rewrite Hhd.
    specialize (IH current s1 Hs).
    destruct (extend_run comparefn false current rest s1)
      as [[run remaining] s2].
    cbn [fst] in *. congruence.
Qed.

Lemma array_sort_in_order (a : list T) (s : St) :
  Sorted (fun x y =>
            forall s', (fst (call_compare comparefn y x s') <? of_Z 0)%num
                       = false) a ->
  fst (array_sort comparefn a s) = a.
Proof.
  intros Hs. destruct a as [|first [|second rest]]; try reflexivity.
  cbn [array_sort].
  apply Sorted_inv in Hs. destruct Hs as [Hs Hhd].
  apply HdRel_inv in Hhd. specialize (Hhd s).
  destruct (call_compare comparefn second first s) as [order s1].
  cbn [fst] in Hhd. rewrite Hhd.
  pose proof (extend_run_in_order s1 Hs) as He.
  destruct (extend_run comparefn false second rest s1)
    as [[run remaining] s2].
  cbn [fst] in He. injection He as -> ->. reflexivity.
Qed.

(** A comparator that answers by a strict weak order [lt] on the elements
    of [domain]: the array comes out sorted, and the sort is stable. *)
Section Consistent.

Variable domain : T -> Prop.
Variable lt : T -> T -> Prop.
Hypothesis negative_iff :
  forall x y s, domain x -> domain y ->
    (fst (call_compare comparefn x y s) <? of_Z 0)%num = true <-> lt x y.
Hypothesis lt_asym : forall a b, lt a b -> ~ lt b a.
Hypothesis lt_le_trans : forall a b c, lt a b -> ~ lt c b -> lt a c.
Hypothesis le_trans : forall a b c, ~ lt b a -> ~ lt c b -> ~ lt c a.

Let le (a b : T) : Prop := ~ lt b a.

Lemma StronglySorted_nth (R : T -> T -> Prop) (l : list T) :
  StronglySorted R l ->
  forall i j a b, (i < j)%nat ->
    nth_error l i = Some a -> nth_error l j = Some b -> R a b.
Proof.
  induction 1 as [|x l Hs IH Hall]; intros i j a b Hij Ha Hb.
  - destruct i; discriminate.
  - destruct j as [|j]; [lia|]. cbn [nth_error] in Hb.
    destruct i as [|i]; cbn [nth_error] in Ha.
    + injection Ha as <-. rewrite Forall_forall in Hall.
      apply Hall. eapply nth_error_In; eauto.
    + apply (IH i j); [lia|assumption|assumption].
Qed.

Lemma find_place_spec (fuel : nat) (pivot : T) (work : list T)
    (left right : nat) (s : St) :
  StronglySorted le work -> Forall domain work -> domain pivot ->
  (left <= right)%nat -> (right <= length work)%nat ->
  (right - left <= fuel)%nat ->
  (forall i e, (i < left)%nat -> nth_error work i = Some e -> ~ lt pivot e) ->
  (forall i e, (right <= i)%nat -> nth_error work i = Some e -> lt pivot e) ->
  (forall i e,
     (i < fst (find_place comparefn fuel pivot work left right s))%nat ->
     nth_error work i = Some e -> ~ lt pivot e)
  /\ (forall i e,
        (fst (find_place comparefn fuel pivot work left right s) <= i)%nat ->
        nth_error work i = Some e -> lt pivot e).
Proof.
  intros Hsorted Hdom Hpivot. revert left right s.
  induction fuel as [|fuel IH]; intros left right s Hlr Hlen Hfuel Hlow Hhigh;
    cbn [find_place].
  - cbn [fst]. split; [exact Hlow|].
    intros i e Hi. apply Hhigh. lia.
  - destruct (left <? right)%nat eqn:Hlt.
    + apply Nat.ltb_lt in Hlt.
      pose proof (@Nat.lt_div2 (right - left) ltac:(lia)) as Hhalf.
      set (mid := (left + Nat.div2 (right - left))%nat) in *.
      assert (Hbounds : (left <= mid < right)%nat).
      { subst mid. revert Hhalf. generalize (Nat.div2 (right - left)).
        intros half Hhalf. lia. }
      clearbody mid. clear Hhalf.
      destruct (nth_error work mid) as [element|] eqn:Hmid.
      2:{ apply nth_error_None in Hmid. lia. }
      assert (Helement : domain element).
      { rewrite Forall_forall in Hdom. apply Hdom.
        eapply nth_error_In; eauto. }
      pose proof (negative_iff s Hpivot Helement) as Hneg.
      destruct (call_compare comparefn pivot element s) as [order s1].
      cbn [fst] in Hneg.
      destruct (order <? of_Z 0)%num.
      * apply IH; [lia|lia|lia|exact Hlow|].
        intros i e Hi He.
        destruct (Nat.eq_dec i mid) as [->|Hne].
        -- rewrite Hmid in He. injection He as <-. now apply Hneg.
        -- apply lt_le_trans with element; [now apply Hneg|].
           apply (StronglySorted_nth Hsorted (i := mid) (j := i));
             [lia|assumption|assumption].
      * apply IH; [lia|lia|lia| |exact Hhigh].
        intros i e Hi He.
        assert (Hnot : ~ lt pivot element).
        { intros H. apply Hneg in H. discriminate. }
        destruct (Nat.eq_dec i mid) as [->|Hne].
        -- rewrite Hmid in He. injection He as <-. exact Hnot.
        -- apply le_trans with element; [|exact Hnot].
           apply (StronglySorted_nth Hsorted (i := i) (j := mid));
             [lia|assumption|assumption].
    + apply Nat.ltb_ge in Hlt. cbn [fst]. split; [exact Hlow|].
      intros i e Hi. apply Hhigh. lia.
Qed.

Lemma insert_sorted (pivot : T) (work : list T) (place : nat) :
  StronglySorted le work ->
  (forall i e, (i < place)%nat -> nth_error work i = Some e -> ~ lt pivot e) ->
  (forall i e, (place <= i)%nat -> nth_error work i = Some e -> lt pivot e) ->
  StronglySorted le (firstn place work ++ pivot :: skipn place work).
Proof.
  intros Hs. revert place. induction Hs as [|a w Hs IH Hall];
    intros place Hlow Hhigh.
  - destruct place; cbn; repeat constructor.
  - destruct place as [|place].
    + cbn [firstn skipn app]. constructor; [now constructor|].
      apply Forall_forall. intros e He.
      apply In_nth_error in He. destruct He as [i Hi].
      apply lt_asym. apply (Hhigh i); [lia|exact Hi].
    + cbn [firstn skipn app]. constructor.
      * apply IH.
        -- intros i e Hi He. apply (Hlow (S i)); [lia|exact He].
        -- intros i e Hi He. apply (Hhigh (S i)); [lia|exact He].
      * rewrite <- (firstn_skipn place w) in Hall.
        apply Forall_app in Hall. destruct Hall as [H1 H2].
        apply Forall_app. split; [exact H1|]. constructor; [|exact H2].
        apply (Hlow O); [lia|reflexivity].
Qed.

Lemma filter_none (f : T -> bool) (l : list T) :
  (forall e, In e l -> f e = false) -> filter f l = [].
Proof.
  induction l as [|x l IH]; intros H; [reflexivity|]. cbn [filter].
  rewrite (H x (or_introl eq_refl)). apply IH. intros e He.
  apply H. now right.
Qed.

(** [class] picks elements among which [lt] never holds. *)
Variable class : T -> bool.
Hypothesis class_equal :
  forall a b, class a = true -> class b = true -> ~ lt a b.

Lemma insert_filter (pivot : T) (work : list T) (place : nat) :
  (forall i e, (place <= i)%nat -> nth_error work i = Some e -> lt pivot e) ->
  filter class (firstn place work ++ pivot :: skipn place work)
  = filter class (work ++ [pivot]).
Proof.
  intros Hhigh. rewrite <- (firstn_skipn place work) at 3.
  rewrite !filter_app. cbn [filter].
  destruct (class pivot) eqn:Hp; [|now rewrite app_nil_r].
  assert (Hnone : filter class (skipn place work) = []).
  { apply filter_none. intros e He.
    apply In_nth_error in He. destruct He as [i Hi].
    rewrite nth_error_skipn in Hi.
    destruct (class e) eqn:Hc; [|reflexivity].
    exfalso. apply (class_equal Hp Hc). apply (Hhigh (place + i)%nat); [lia|].
    exact Hi. }
  rewrite Hnone. now rewrite app_nil_r.
Qed.

Lemma binary_insertion_consistent (todo sorted : list T) (s : St) :
  StronglySorted le sorted -> Forall domain sorted -> Forall domain todo ->
  StronglySorted le (fst (binary_insertion comparefn sorted todo s))
  /\ filter class (fst (binary_insertion comparefn sorted todo s))
     = filter class (sorted ++ todo).
Proof.
  revert sorted s. induction todo as [|pivot rest IH];
    intros sorted s Hs Hdom Htodo; cbn [binary_insertion].
  - cbn [fst]. rewrite app_nil_r. now split.
  - inversion Htodo as [|? ? Hpivot Hrest]; subst.
    destruct (@find_place_spec (length sorted) pivot sorted 0 (length sorted) s
                Hs Hdom Hpivot) as [Hlow Hhigh];
      [lia|lia|lia|intros i e Hi; lia| |].
    { intros i e Hi He.
      assert (nth_error sorted i = None) by (apply nth_error_None; lia).
      congruence. }
    destruct (find_place comparefn (length sorted) pivot sorted 0
                (length sorted) s) as [place s1].
    cbn [fst] in Hlow, Hhigh.
    destruct (IH (firstn place sorted ++ pivot :: skipn place sorted) s1)
      as [Hsorted Hfilter].
    + now apply insert_sorted.
    + rewrite <- (firstn_skipn place sorted) in Hdom.
      apply Forall_app in Hdom. destruct Hdom as [H1 H2].
      apply Forall_app. split; [exact H1|]. now constructor.
    + exact Hrest.
    + split; [exact Hsorted|]. rewrite Hfilter.
      rewrite filter_app, (@insert_filter pivot sorted place Hhigh).
      rewrite <- filter_app, <- app_assoc. reflexivity.
Qed.

Lemma extend_run_chain (isDescending : bool) (rest : list T) (previous : T)
    (s : St) :
  Forall domain (previous :: rest) ->
  Sorted (if isDescending then (fun a b => lt b a) else le)
    (previous :: fst (fst (extend_run comparefn isDescending previous rest s))).
Proof.
  revert previous s. induction rest as [|current rest IH];
    intros previous s Hdom; cbn [extend_run].
  - cbn [fst]. repeat constructor.
  - inversion Hdom as [|? ? Hprev Hrest]; subst.
    inversion Hrest as [|? ? Hcur _]; subst.
    pose proof (negative_iff s Hcur Hprev) as Hneg.
    destruct (call_compare comparefn current previous s) as [order s1].
    cbn [fst] in Hneg.
    specialize (IH current s1 Hrest).
    destruct (extend_run comparefn isDescending current rest s1)
      as [[run remaining] s2].
    cbn [fst] in IH.
    destruct isDescending, (order <? of_Z 0)%num; cbn [negb fst];
      try (repeat constructor; fail).
    + constructor; [exact IH|]. constructor. now apply Hneg.
    + constructor; [exact IH|]. constructor. unfold le. intros H.
      apply Hneg in H. discriminate.
Qed.

Lemma StronglySorted_weaken (R R' : T -> T -> Prop) (l : list T) :
  (forall a b, R a b -> R' a b) -> StronglySorted R l -> StronglySorted R' l.
Proof.
  intros HR. induction 1 as [|x l Hs IH Hall]; constructor.
  - exact IH.
  - eapply Forall_impl; [|exact Hall]. apply HR.
Qed.

(** In a strictly descending run at most one element is of the class. *)
Lemma descending_filter (l : list T) :
  StronglySorted (fun a b => lt b a) l ->
  filter class (rev l) = filter class l.
Proof.
  induction 1 as [|x l Hs IH Hall]; [reflexivity|].
  cbn [rev]. rewrite filter_app, IH. cbn [filter].
  destruct (class x) eqn:Hx; [|now rewrite app_nil_r].
  assert (Hnone : filter class l = []).
  { apply filter_none. intros e He. rewrite Forall_forall in Hall.
    destruct (class e) eqn:Hc; [|reflexivity].
    exfalso. exact (class_equal Hc Hx (Hall e He)). }
  now rewrite Hnone.
Qed.

Lemma array_sort_consistent (a : list T) (s : St) :
  Forall domain a ->
  StronglySorted le (fst (array_sort comparefn a s))
  /\ filter class (fst (array_sort comparefn a s)) = filter class a.
Proof.
  intros Hdom. destruct a as [|first [|second rest]];
    try (split; [repeat constructor|reflexivity]).
  cbn [array_sort].
  inversion Hdom as [|? ? Hfirst Htail]; subst.
  inversion Htail as [|? ? Hsecond _]; subst.
  pose proof (negative_iff s Hsecond Hfirst) as Hneg.
  destruct (call_compare comparefn second first s) as [order s1].
  cbn [fst] in Hneg.
  pose proof (extend_run_split (order <? of_Z 0)%num rest second s1) as Hsplit.
  pose proof (extend_run_chain (order <? of_Z 0)%num s1 Htail) as Hchain.
  destruct (extend_run comparefn (order <? of_Z 0)%num second rest s1)
    as [[run remaining] s2].
  cbn [fst snd] in Hsplit, Hchain. subst rest.
  assert (Hrun : Forall domain (first :: second :: run)
                 /\ Forall domain remaining).
  { change (first :: second :: run ++ remaining)
      with ((first :: second :: run) ++ remaining) in Hdom.
    now apply Forall_app in Hdom. }
  destruct Hrun as [Hrun Hremaining].
  destruct (order <? of_Z 0)%num.
  - assert (Hdesc : StronglySorted (fun a b => lt b a)
                      (first :: second :: run)).
    { apply Sorted_StronglySorted.
      - intros x y z Hxy Hyz. apply lt_le_trans with y; [exact Hyz|].
        now apply lt_asym.
      - constructor; [exact Hchain|]. constructor. now apply Hneg. }
    destruct (@binary_insertion_consistent remaining
                (rev (first :: second :: run)) s2) as [Hsorted Hfilter].
    + apply StronglySorted_weaken with (R := fun a b => lt a b);
        [exact lt_asym|].
      exact (StronglySorted_rev Hdesc).
    + apply Forall_rev. exact Hrun.
    + exact Hremaining.
    + split; [exact Hsorted|]. rewrite Hfilter.
      rewrite filter_app, (descending_filter Hdesc), <- filter_app.
      reflexivity.
  - destruct (@binary_insertion_consistent remaining
                (first :: second :: run) s2) as [Hsorted Hfilter].
    + apply Sorted_StronglySorted.
      * intros x y z Hxy Hyz. exact (le_trans Hxy Hyz).
      * constructor; [exact Hchain|]. constructor. unfold le. intros H.
        apply Hneg in H. discriminate.
    + exact Hrun.
    + exact Hremaining.
    + split; [exact Hsorted|]. rewrite Hfilter. reflexivity.
Qed.

End Consistent.

End ArraySortFacts.

(** Away from [NaN] the order of the keys is [<]. *)
Lemma precedes_ltb (a b : num) :
  a <> NaN -> b <> NaN -> Num.precedes a b = (a <? b)%num.
Proof. intros Ha Hb. destruct a, b; try congruence; reflexivity. Qed.

Lemma precedes_irrefl (a : num) : Num.precedes a a = false.
Proof.
  destruct a as [x| | |]; try reflexivity. simpl.
  apply negb_false_iff, Qle_bool_iff, Qle_refl.
Qed.

Lemma precedes_asym (a b : num) :
  Num.precedes a b = true -> Num.precedes b a = false.
Proof.
  destruct a as [x| | |], b as [y| | |]; simpl; try congruence.
  intros H. apply negb_true_iff in H. apply negb_false_iff, Qle_bool_iff.
  destruct (Qlt_le_dec x y) as [Hlt|Hle].
  - now apply Qlt_le_weak.
  - apply Qle_bool_iff in Hle. congruence.
Qed.

Lemma precedes_negtrans (a b c : num) :
  Num.precedes a b = false -> Num.precedes b c = false ->
  Num.precedes a c = false.
Proof.
  destruct a as [x| | |], b as [y| | |], c as [z| | |]; simpl;
    try congruence.
  intros H1 H2. apply negb_false_iff in H1, H2.
  apply negb_false_iff, Qle_bool_iff.
  apply Qle_bool_iff in H1, H2. now apply Qle_trans with y.
Qed.

(** On numbers other than [NaN], the engine reads [a - b] as negative
    exactly when [a < b]. *)
Lemma difference_negative (a b : num) :
  a <> NaN -> b <> NaN ->
  (sort_order (a - b) <? of_Z 0)%num = (a <? b)%num.
Proof.
  intros Ha Hb. destruct a as [x| | |], b as [y| | |];
    try congruence; try reflexivity.
  unfold sort_order, Num.sub, Num.neg, Num.add, Num.ltb, of_Z. f_equal.
  apply eq_true_iff_eq. rewrite !Qle_bool_iff, !Qred_correct.
  rewrite <- (Qplus_le_l y x (- y)), Qplus_opp_r. reflexivity.
Qed.

Lemma not_ltb_leb (a b : num) :
  a <> NaN -> b <> NaN -> (b <? a)%num = false -> Num.leb a b = true.
Proof.
  intros Ha Hb. destruct a as [x| | |], b as [y| | |]; simpl;
    try congruence.
  intros H. now apply negb_false_iff in H.
Qed.

Lemma leb_not_negative (a b : num) :
  Num.leb a b = true -> (sort_order (b - a) <? of_Z 0)%num = false.
Proof.
  intros H.
  assert (Ha : a <> NaN) by (destruct a, b; simpl in H; congruence).
  assert (Hb : b <> NaN) by (destruct a, b; simpl in H; congruence).
  rewrite difference_negative by assumption.
  destruct a as [x| | |], b as [y| | |]; simpl in *; try congruence.
  now rewrite H.
Qed.

Lemma Sorted_guarded (T : Type) (P : T -> Prop) (R : T -> T -> Prop)
    (l : list T) :
  Sorted (fun a b => P a -> P b -> R a b) l -> Forall P l -> Sorted R l.
Proof.
  induction 1 as [|a l Hs IH Hhd]; intros Hall.
  - constructor.
  - inversion Hall as [|? ? Pa Pl]; subst. constructor; [now apply IH|].
    destruct Hhd as [|b l' Hab]; constructor.
    inversion Pl; subst. now apply Hab.
Qed.

Lemma Sorted_weaken (T : Type) (R R' : T -> T -> Prop) (l : list T) :
  (forall a b, R a b -> R' a b) -> Sorted R l -> Sorted R' l.
Proof.
  intros HR. induction 1 as [|a l Hs IH Hhd]; constructor.
  - exact IH.
  - destruct Hhd; constructor. now apply HR.
Qed.

Lemma sortColor_permutation (points : list ColorPoint) (order : bool)
    (algorithm : ColorPoint -> num) :
  Permutation points (sortColor points order algorithm).
Proof. unfold sortColor. apply array_sort_permutation. Qed.

(** With a metric that is not [NaN] on the points the comparator of
    [sortColor] answers by the order of the metric: the points come out in
    that order, those of equal metric in the order in which they went in. *)
Lemma sortColor_consistent (points : list ColorPoint) (order : bool)
    (metric : ColorPoint -> num) (class : ColorPoint -> bool) :
  (forall p, In p points -> metric p <> NaN) ->
  (forall a b, class a = true -> class b = true -> metric a = metric b) ->
  (if order then ascending metric (sortColor points order metric)
   else descending metric (sortColor points order metric))
  /\ filter class (sortColor points order metric) = filter class points.
Proof.
  intros Hnum Hclass.
  assert (Hall : Forall (fun p => metric p <> NaN)
                   (sortColor points order metric)).
  { apply Forall_forall. intros p Hp. apply Hnum.
    apply Permutation_in with (2 := Hp).
    apply Permutation_sym, sortColor_permutation. }
  assert (Hdom : Forall (fun p => metric p <> NaN) points)
    by now apply Forall_forall.
  unfold sortColor in *.
  destruct order.
  - destruct (@array_sort_consistent ColorPoint unit
                (fun a b (s : unit) => ((metric a - metric b)%num, s))
                (fun p => metric p <> NaN)
                (fun a b => Num.precedes (metric a) (metric b) = true))
      with (class := class) (a := points) (s := tt) as [Hsorted Hfilter].
    + intros x y s Hx Hy. cbn [call_compare fst].
      rewrite difference_negative, precedes_ltb by assumption. reflexivity.
    + intros a b H. rewrite (precedes_asym _ _ H). discriminate.
    + intros a b c Hab Hcb.
      destruct (Num.precedes (metric a) (metric c)) eqn:Hac; [reflexivity|].
      apply not_true_is_false in Hcb.
      rewrite (precedes_negtrans _ _ _ Hac Hcb) in Hab. discriminate.
    + intros a b c Hba Hcb. apply not_true_is_false in Hba, Hcb.
      rewrite (precedes_negtrans _ _ _ Hcb Hba). discriminate.
    + intros a b Ha Hb. rewrite (Hclass a b Ha Hb), precedes_irrefl.
      discriminate.
    + exact Hdom.
    + split; [|exact Hfilter].
      apply Sorted_guarded with (P := fun p => metric p <> NaN);
        [|exact Hall].
      apply StronglySorted_Sorted in Hsorted.
      apply Sorted_weaken with (2 := Hsorted). intros a b Hab Ha Hb.
      apply not_ltb_leb; try assumption.
      rewrite <- precedes_ltb by assumption. now apply not_true_is_false.
  - destruct (@array_sort_consistent ColorPoint unit
                (fun a b (s : unit) => ((metric b - metric a)%num, s))
                (fun p => metric p <> NaN)
                (fun a b => Num.precedes (metric b) (metric a) = true))
      with (class := class) (a := points) (s := tt) as [Hsorted Hfilter].
    + intros x y s Hx Hy. cbn [call_compare fst].
      rewrite difference_negative, precedes_ltb by assumption. reflexivity.
    + intros a b H. rewrite (precedes_asym _ _ H). discriminate.
    + intros a b c Hab Hcb.
      destruct (Num.precedes (metric c) (metric a)) eqn:Hac; [reflexivity|].
      apply not_true_is_false in Hcb.
      rewrite (precedes_negtrans _ _ _ Hcb Hac) in Hab. discriminate.
    + intros a b c Hba Hcb. apply not_true_is_false in Hba, Hcb.
      rewrite (precedes_negtrans _ _ _ Hba Hcb). discriminate.
    + intros a b Ha Hb. rewrite (Hclass a b Ha Hb), precedes_irrefl.
      discriminate.
    + exact Hdom.
    + split; [|exact Hfilter].
      apply Sorted_guarded with (P := fun p => metric p <> NaN);
        [|exact Hall].
      apply StronglySorted_Sorted in Hsorted.
      apply Sorted_weaken with (2 := Hsorted). intros a b Hab Ha Hb.
      apply not_ltb_leb; try assumption.
      rewrite <- precedes_ltb by assumption. now apply not_true_is_false.
Qed.

Lemma sortColor_ordered (points : list ColorPoint) (order : bool)
    (metric : ColorPoint -> num) :
  (forall p, In p points -> metric p <> NaN) ->
  if order then ascending metric (sortColor points true metric)
  else descending metric (sortColor points false metric).
Proof.
  intros Hnum.
  destruct (@sortColor_consistent points order metric (fun _ => false) Hnum)
    as [Hs _]; [discriminate|].
  destruct order; exact Hs.
Qed.

(** C8, as the claim states it, fails: [getSaturation] is [NaN] on black,
    and with black between red and white the array is returned as it was,
    its saturations reading 1, [NaN], 0. *)
Lemma sortColor_ascending_counterexample :
  sortColor [(255, 0, 0); (0, 0, 0); (255, 255, 255)] true getSaturation
  = [(255, 0, 0); (0, 0, 0); (255, 255, 255)]
  /\ map getSaturation [(255, 0, 0); (0, 0, 0); (255, 255, 255)]
     = [Fin 1; NaN; Fin 0]
  /\ ~ ascending getSaturation
         (sortColor [(255, 0, 0); (0, 0, 0); (255, 255, 255)] true
            getSaturation).
Proof.
  split; [reflexivity|]. split; [reflexivity|].
  intros H. change (ascending getSaturation
                      [(255, 0, 0); (0, 0, 0); (255, 255, 255)]) in H.
  apply Sorted_inv in H. destruct H as [_ H].
  apply HdRel_inv in H. discriminate H.
Qed.

(** C8, amended. For every sequence of points and every metric that is
    not [NaN] on any of them, [sortColor(points, true, metric)] returns a
    sequence along which the metric never decreases and
    [sortColor(points, false, metric)] one along which it never increases;
    for every metric whatsoever the result is a permutation of the input. *)
Theorem sortColor_sorted
    (points : list ColorPoint) (metric : ColorPoint -> num)
    (Hnum : forall p, In p points -> metric p <> NaN) :
  ascending metric (sortColor points true metric)
  /\ descending metric (sortColor points false metric)
  /\ (forall order any_metric,
        Permutation points (sortColor points order any_metric)).
Proof.
  split; [|split].
  - exact (sortColor_ordered points true metric Hnum).
  - exact (sortColor_ordered points false metric Hnum).
  - intros order any_metric. apply sortColor_permutation.
Qed.

Lemma sortColor_sorted_witness :
  ascending getValue
    (sortColor [(255, 0, 0); (10, 0, 0); (255, 255, 255); (30, 0, 0)] true
       getValue)
  /\ descending getValue
       (sortColor [(255, 0, 0); (10, 0, 0); (255, 255, 255); (30, 0, 0)] false
          getValue).
Proof.
  assert (H : forall p,
             In p [(255, 0, 0); (10, 0, 0); (255, 255, 255); (30, 0, 0)] ->
             getValue p <> NaN).
  { intros p Hp. simpl in Hp.
    destruct Hp as [<-|[<-|[<-|[<-|[]]]]]; discriminate. }
  destruct (sortColor_sorted
              [(255, 0, 0); (10, 0, 0); (255, 255, 255); (30, 0, 0)]
              getValue H) as (Hasc & Hdesc & _).
  split; [exact Hasc | exact Hdesc].
Defined.

(** ** The assignment step *)

Lemma fold_min_le (l : list Z) (d : Z) :
  fold_left Z.min l d <= d /\ forall x, In x l -> fold_left Z.min l d <= x.
Proof.
  revert d. induction l as [|y l IH]; intros d; simpl.
  - split; [lia | intros x []].
  - destruct (IH (Z.min d y)) as [H1 H2]. split; [lia|].
    intros x [<-|Hx]; [lia | now apply H2].
Qed.

Lemma fold_min_in (l : list Z) (d : Z) : In (fold_left Z.min l d) (d :: l).
Proof.
  revert d. induction l as [|y l IH]; intros d; simpl.
  - now left.
  - destruct (IH (Z.min d y)) as [H|H].
    + rewrite <- H.
      destruct (Z.min_spec d y) as [[_ E]|[_ E]]; rewrite E; auto.
    + auto.
Qed.

Lemma indexOf_spec (ds : list Z) (x : Z) (t : nat) :
  indexOf ds x = Some t ->
  nth_error ds t = Some x
  /\ forall j y, (j < t)%nat -> nth_error ds j = Some y -> y <> x.
Proof.
  revert t. induction ds as [|d ds IH]; intros t; simpl; [discriminate|].
  destruct (Z.eqb_spec d x) as [->|Hne].
  - intros [= <-]. split; [reflexivity | intros j y Hj; lia].
  - destruct (indexOf ds x) as [i|]; [|discriminate].
    intros [= <-]. destruct (IH i eq_refl) as [H1 H2]. split; [exact H1|].
    intros [|j] y Hj; simpl.
    + intros [= <-]. exact Hne.
    + apply H2. lia.
Qed.

Lemma indexOf_in (ds : list Z) (x : Z) :
  In x ds -> exists t, indexOf ds x = Some t /\ (t < length ds)%nat.
Proof.
  induction ds as [|d ds IH]; simpl; [intros []|].
  intros H. destruct (Z.eqb_spec d x) as [->|Hne].
  - exists O. split; [reflexivity | lia].
  - destruct H as [H|H]; [contradiction|].
    destruct (IH H) as (t & -> & Ht). exists (S t). split; [reflexivity | lia].
Qed.

Lemma target_index_some (ds : list Z) :
  ds <> [] -> exists t, target_index ds = Some t /\ (t < length ds)%nat.
Proof.
  destruct ds as [|d rest]; [congruence|]. intros _.
  unfold target_index, min_distance.
  apply indexOf_in. apply fold_min_in.
Qed.

(** The target is the first index at which the least distance stands. *)
Lemma target_index_first_min (ds : list Z) (t : nat) :
  target_index ds = Some t ->
  exists m, nth_error ds t = Some m
            /\ forall j x, nth_error ds j = Some x ->
                 m <= x /\ ((j < t)%nat -> m < x).
Proof.
  unfold target_index. destruct ds as [|d rest]; [discriminate|].
  unfold min_distance. set (m := fold_left Z.min rest d). intros H.
  destruct (indexOf_spec _ _ H) as [Ht Hfirst].
  exists m. split; [exact Ht|]. intros j x Hj.
  assert (Hle : m <= x).
  { apply nth_error_In in Hj. destruct (fold_min_le rest d) as [H1 H2].
    destruct Hj as [<-|Hj]; [exact H1 | now apply H2]. }
  split; [exact Hle|]. intros Hlt.
  specialize (Hfirst j x Hlt Hj). lia.
Qed.

Lemma map_outcome_defined (centers : list Slot) :
  (exists old, map_outcome defined centers = Ok old /\ centers = map Some old)
  \/ (map_outcome defined centers = Throw /\ In None centers).
Proof.
  induction centers as [|[c|] centers IH]; simpl.
  - left. exists []. auto.
  - destruct IH as [(old & -> & ->)|[-> H]].
    + left. exists (c :: old). auto.
    + right. auto.
  - right. auto.
Qed.

Lemma distances_to_spec (centers : list Slot) (pixel : ColorPoint) :
  (exists cs, centers = map Some cs
              /\ distances_to centers pixel
                 = Ok (map (fun c => sqdist c pixel) cs))
  \/ (distances_to centers pixel = Throw /\ In None centers).
Proof.
  unfold distances_to. induction centers as [|[c|] centers IH]; simpl.
  - left. exists []. auto.
  - destruct IH as [(cs & -> & ->)|[-> H]].
    + left. exists (c :: cs). auto.
    + right. auto.
  - right. auto.
Qed.

Lemma assign_pixel_nearest (centers : list Slot)
    (clusters : list (list ColorPoint)) (pixel : ColorPoint) :
  assign_pixel centers clusters pixel
  = match nearest centers pixel with
    | Some t => push_at clusters t pixel
    | None => Throw
    end.
Proof.
  unfold assign_pixel, nearest.
  destruct (distances_to_spec centers pixel) as [(cs & _ & ->)|[-> _]];
    reflexivity.
Qed.

Lemma push_at_spec (clusters : list (list ColorPoint)) (i : nat)
    (pixel : ColorPoint) :
  match push_at clusters i pixel with
  | Ok clusters' =>
      (i < length clusters)%nat
      /\ length clusters' = length clusters
      /\ (forall j, nth j clusters' []
                    = if Nat.eqb j i then nth j clusters [] ++ [pixel]
                      else nth j clusters [])
      /\ Permutation (concat clusters') (pixel :: concat clusters)
  | Throw => (length clusters <= i)%nat
  | OutOfFuel => False
  end.
Proof.
  revert i. induction clusters as [|c rest IH]; intros i; simpl.
  - lia.
  - destruct i as [|i].
    + split; [lia|]. split; [reflexivity|]. split.
      * intros [|j]; reflexivity.
      * simpl. rewrite <- app_assoc. simpl.
        apply Permutation_sym, Permutation_middle.
    + specialize (IH i). destruct (push_at rest i pixel) as [rest'| |].
      * destruct IH as (H1 & H2 & H3 & H4). split; [lia|].
        split; [simpl; lia|]. split.
        -- intros [|j]; [reflexivity | apply H3].
        -- simpl. rewrite H4. apply Permutation_sym, Permutation_middle.
      * lia.
      * exact IH.
Qed.

Lemma assign_all_spec (centers : list Slot) (pixels : list ColorPoint) :
  forall clusters,
    match assign_all centers pixels clusters with
    | Ok clusters' =>
        length clusters' = length clusters
        /\ Permutation (concat clusters') (concat clusters ++ pixels)
        /\ (forall p, In p pixels ->
              exists t, nearest centers p = Some t
                        /\ (t < length clusters)%nat)
        /\ (forall i, nth i clusters' []
                      = nth i clusters []
                        ++ filter (assigned_to centers i) pixels)
    | Throw =>
        exists p, In p pixels
                  /\ (nearest centers p = None
                      \/ exists t, nearest centers p = Some t
                                   /\ (length clusters <= t)%nat)
    | OutOfFuel => False
    end.
Proof.
  induction pixels as [|pixel rest IH]; intros clusters; simpl.
  - split; [reflexivity|]. split; [now rewrite app_nil_r|].
    split; [intros p []|]. intros i. now rewrite app_nil_r.
  - rewrite assign_pixel_nearest.
    destruct (nearest centers pixel) as [t|] eqn:Ht.
    + pose proof (push_at_spec clusters t pixel) as Hpush.
      destruct (push_at clusters t pixel) as [clusters1| |].
      * destruct Hpush as (Hlt & Hlen & Hnth & Hperm).
        specialize (IH clusters1).
        destruct (assign_all centers rest clusters1) as [clusters2| |].
        -- destruct IH as (IH1 & IH2 & IH3 & IH4).
           split; [congruence|]. split.
           { rewrite IH2, Hperm. simpl.
             rewrite <- Permutation_middle. reflexivity. }
           split.
           { intros p [<-|Hp].
             - exists t. auto.
             - destruct (IH3 p Hp) as (u & Hu & Hlu). exists u.
               split; [exact Hu | lia]. }
           intros i. rewrite IH4, Hnth. unfold assigned_to at 2. rewrite Ht.
           rewrite (Nat.eqb_sym t i).
           destruct (Nat.eqb i t); [now rewrite <- app_assoc | reflexivity].
        -- destruct IH as (p & Hp & Hcase). exists p. split; [auto|].
           destruct Hcase as [Hnone|(u & Hu & Hlu)]; [auto|].
           right. exists u. split; [exact Hu | lia].
        -- exact IH.
      * exists pixel. split; [auto|]. right. exists t. auto.
      * exact Hpush.
    + exists pixel. auto.
Qed.

(** ** The update step and the loop *)

Section KmeansFacts.

Variable rnd : nat -> Q.

Lemma array_get_in_range (pixels : list ColorPoint) (r : Q) :
  pixels <> [] -> (0 <= r)%Q -> (r < 1)%Q ->
  array_get pixels (Qfloor (r * inject_Z (Z.of_nat (length pixels)))) <> None.
Proof.
  intros Hne Hr0 Hr1.
  set (n := Z.of_nat (length pixels)).
  assert (Hn : 0 < n) by (destruct pixels; [congruence | simpl in n; lia]).
  assert (HnQ : (0 < inject_Z n)%Q) by (unfold Qlt, inject_Z; simpl; lia).
  set (i := Qfloor (r * inject_Z n)).
  assert (Hi0 : 0 <= i).
  { unfold i. rewrite <- (Qfloor_Z 0). apply Qfloor_resp_le.
    apply Qmult_le_0_compat; [exact Hr0 | now apply Qlt_le_weak]. }
  assert (Hi1 : i < n).
  { rewrite Zlt_Qlt. apply Qle_lt_trans with (r * inject_Z n)%Q.
    - apply Qfloor_le.
    - rewrite <- (Qmult_1_l (inject_Z n)) at 2.
      apply Qmult_lt_compat_r; assumption. }
  unfold array_get. destruct (Z.ltb_spec i 0) as [|_]; [lia|].
  apply nth_error_Some. lia.
Qed.

Lemma mapM_new_center (pixels : list ColorPoint)
    (clusters : list (list ColorPoint)) (s : state) :
  exists centers' s',
    mapM (new_center rnd pixels) clusters s = (Ok centers', s')
    /\ length centers' = length clusters
    /\ trace s' = trace s
    /\ (pixels <> [] -> unit_interval rnd ->
        Forall (fun c => c <> None) centers').
Proof.
  revert s. induction clusters as [|points rest IH]; intros s.
  - exists [], s. simpl. unfold ret. repeat split. constructor.
  - cbn [mapM]. unfold bind at 1.
    assert (Hfirst : exists c s1,
               new_center rnd pixels points s = (Ok c, s1)
               /\ trace s1 = trace s
               /\ (pixels <> [] -> unit_interval rnd -> c <> None)).
    { destruct points as [|p points].
      - eexists. eexists. split; [reflexivity|]. split; [reflexivity|].
        intros Hne Hrnd. destruct (Hrnd (draws s)).
        now apply array_get_in_range.
      - eexists. eexists. split; [reflexivity|]. split; [reflexivity|].
        intros _ _. discriminate. }
    destruct Hfirst as (c & s1 & -> & Ht1 & Hc).
    destruct (IH s1) as (cs & s2 & Hrest & Hlen & Ht2 & Hcs).
    unfold bind at 1. rewrite Hrest. unfold ret.
    exists (c :: cs), s2. split; [reflexivity|].
    split; [simpl; congruence|]. split; [congruence|].
    intros Hne Hrnd. constructor; auto.
Qed.

Lemma kmeans_pass_spec (pixels : list ColorPoint) (k : nat)
    (centers : list Slot) (s : state) :
  match kmeans_pass rnd pixels k centers s with
  | (Ok (old', centers'), s') =>
      centers = map Some old'
      /\ length centers' = k
      /\ (pixels <> [] -> unit_interval rnd ->
          Forall (fun c => c <> None) centers')
      /\ exists clusters,
           assign_all centers pixels (repeat [] k) = Ok clusters
           /\ trace s' = Updated centers' :: Assigned centers clusters
                           :: PassBegun :: trace s
  | (Throw, s') =>
      trace s' = [PassBegun] ++ trace s
      /\ (In None centers
          \/ assign_all centers pixels (repeat [] k) = Throw)
  | (OutOfFuel, _) => False
  end.
Proof.
  unfold kmeans_pass. unfold bind at 1. cbn [emit].
  unfold bind at 1, lift at 1.
  destruct (map_outcome_defined centers) as [(old & -> & Hold)|[-> Hin]];
    [|split; [reflexivity | now left]].
  unfold bind at 1, lift at 1.
  pose proof (assign_all_spec centers pixels (repeat [] k)) as Hassign.
  destruct (assign_all centers pixels (repeat [] k)) as [clusters| |];
    [|split; [reflexivity | now right]|exact Hassign].
  destruct Hassign as (Hlen & _).
  unfold bind at 1. cbn [emit]. unfold bind at 1.
  match goal with
  | |- context [mapM _ clusters ?st] =>
      destruct (mapM_new_center pixels clusters st)
        as (cs & s1 & -> & Hcs & Ht & Hdef)
  end.
  unfold bind, emit, ret. cbn [trace] in *.
  split; [exact Hold|]. split.
  - rewrite Hcs, Hlen. apply repeat_length.
  - split; [exact Hdef|]. exists clusters. split; [reflexivity|].
    now rewrite Ht.
Qed.

Lemma converged_from_fuel (pending : list ColorPoint) (i : nat)
    (new_centers : list Slot) :
  converged_from pending i new_centers <> OutOfFuel.
Proof.
  revert i. induction pending as [|old rest IH]; intros i; simpl.
  - discriminate.
  - destruct (nth i new_centers None); [|discriminate].
    destruct (1 <? sqdist old c); [discriminate | apply IH].
Qed.

Lemma isConverged_fuel (old_centers : list ColorPoint)
    (new_centers : list Slot) :
  isConverged old_centers new_centers <> OutOfFuel.
Proof.
  unfold isConverged. destruct old_centers; [discriminate|].
  apply converged_from_fuel.
Qed.

Lemma kmeans_loop_unfold (fuel : nat) (pixels : list ColorPoint) (k : nat)
    (max_iterations : Z) (centers : list Slot) (old : list ColorPoint)
    (iterations : Z) (s : state) :
  kmeans_loop rnd (S fuel) pixels k max_iterations centers old iterations s
  = match isConverged old centers with
    | Ok true => (Ok centers, s)
    | Ok false =>
        if iterations <=? max_iterations then
          match kmeans_pass rnd pixels k centers s with
          | (Ok next, s1) =>
              kmeans_loop rnd fuel pixels k max_iterations (snd next)
                (fst next) (iterations + 1) s1
          | (Throw, s1) => (Throw, s1)
          | (OutOfFuel, s1) => (OutOfFuel, s1)
          end
        else (Ok centers, s)
    | Throw => (Throw, s)
    | OutOfFuel => (OutOfFuel, s)
    end.
Proof.
  cbn [kmeans_loop]. unfold bind at 1, lift at 1.
  destruct (isConverged old centers) as [[|]| |]; try reflexivity.
  destruct (iterations <=? max_iterations); reflexivity.
Qed.

Lemma kmeans_loop_bounded (pixels : list ColorPoint) (k : nat)
    (max_iterations : Z) :
  forall (budget fuel : nat) (centers : list Slot) (old : list ColorPoint)
         (iterations : Z) (s : state),
    (Z.to_nat (max_iterations + 1 - iterations) <= budget)%nat ->
    (budget < fuel)%nat ->
    kmeans_loop rnd fuel pixels k max_iterations centers old iterations s
    = kmeans_loop rnd (S budget) pixels k max_iterations centers old
        iterations s
    /\ fst (kmeans_loop rnd fuel pixels k max_iterations centers old
              iterations s) <> OutOfFuel
    /\ (passes (trace (snd (kmeans_loop rnd fuel pixels k max_iterations
                              centers old iterations s)))
        <= passes (trace s) + Z.to_nat (max_iterations + 1 - iterations))%nat.
Proof.
  induction budget as [|b IH]; intros fuel centers old iterations s Hb Hf;
    (destruct fuel as [|f]; [lia|]);
    rewrite !kmeans_loop_unfold;
    pose proof (isConverged_fuel old centers) as Hfuel;
    (destruct (isConverged old centers) as [[|]| |];
     [ | | | congruence]);
    try (split; [reflexivity|]; split; [discriminate | cbn [snd]; lia]).
  - destruct (Z.leb_spec iterations max_iterations) as [Hle|Hgt]; [lia|].
    split; [reflexivity|]. split; [discriminate | cbn [snd]; lia].
  - destruct (Z.leb_spec iterations max_iterations) as [Hle|Hgt].
    + pose proof (kmeans_pass_spec pixels k centers s) as Hpass.
      destruct (kmeans_pass rnd pixels k centers s) as [[[old' cs']| |] s1].
      * destruct Hpass as (_ & _ & _ & clusters & _ & Ht). cbn [fst snd].
        destruct (IH f cs' old' (iterations + 1) s1 ltac:(lia) ltac:(lia))
          as (Heq & Hne & Hcount).
        split; [exact Heq|]. split; [exact Hne|].
        rewrite Ht in Hcount. unfold passes in *. simpl in Hcount. lia.
      * destruct Hpass as [Ht _]. split; [reflexivity|].
        split; [discriminate|]. cbn [snd]. rewrite Ht.
        unfold passes. simpl. lia.
      * contradiction.
    + split; [reflexivity|]. split; [discriminate | cbn [snd]; lia].
Qed.

Lemma kmeans_loop_trace (pixels : list ColorPoint) (k : nat)
    (max_iterations : Z) :
  forall (fuel : nat) (centers : list Slot) (old : list ColorPoint)
         (iterations : Z) (s : state),
    (exists added,
        trace (snd (kmeans_loop rnd fuel pixels k max_iterations centers old
                      iterations s)) = added ++ trace s
        /\ Forall (pass_event pixels k) added)
    /\ (forall r,
          fst (kmeans_loop rnd fuel pixels k max_iterations centers old
                 iterations s) = Ok r ->
          r = centers \/ length r = k).
Proof.
  induction fuel as [|f IH]; intros centers old iterations s.
  - split; [exists []; split; [reflexivity | constructor]|].
    intros r H. discriminate H.
  - rewrite kmeans_loop_unfold.
    assert (Hstop : forall o : outcome (list Slot),
               (forall r, o = Ok r -> r = centers) ->
               (exists added, trace (snd (o, s)) = added ++ trace s
                              /\ Forall (pass_event pixels k) added)
               /\ (forall r, fst (o, s) = Ok r -> r = centers \/ length r = k)).
    { intros o Ho. split; [exists []; split; [reflexivity | constructor]|].
      intros r Hr. left. now apply Ho. }
    destruct (isConverged old centers) as [[|]| |];
      try (apply Hstop; congruence).
    destruct (iterations <=? max_iterations); [|apply Hstop; congruence].
    pose proof (kmeans_pass_spec pixels k centers s) as Hpass.
    destruct (kmeans_pass rnd pixels k centers s) as [[[old' cs']| |] s1].
    + destruct Hpass as (_ & Hlen & _ & clusters & Hassign & Ht).
      cbn [fst snd].
      destruct (IH cs' old' (iterations + 1) s1) as [(added & Hadd & Hall) Hr].
      split.
      * exists (added ++ [Updated cs'; Assigned centers clusters; PassBegun]).
        split.
        -- rewrite Hadd, Ht, <- app_assoc. reflexivity.
        -- apply Forall_app. split; [exact Hall|].
           repeat constructor; assumption.
      * intros r H. right. destruct (Hr r H) as [->|]; assumption.
    + destruct Hpass as [Ht _]. split.
      * exists [PassBegun]. split; [exact Ht | repeat constructor].
      * intros r H. discriminate H.
    + contradiction.
Qed.

End KmeansFacts.

(** ** Which center a pixel goes to *)

Lemma sqdist_nonneg (p q : ColorPoint) : 0 <= sqdist p q.
Proof.
  destruct p as [[r1 g1] b1], q as [[r2 g2] b2]. unfold sqdist.
  rewrite !Z.pow_2_r.
  pose proof (Z.square_nonneg (r1 - r2)).
  pose proof (Z.square_nonneg (g1 - g2)).
  pose proof (Z.square_nonneg (b1 - b2)). lia.
Qed.

Lemma distance_le (p q p' q' : ColorPoint) :
  sqdist p q <= sqdist p' q' ->
  (euclideanDistance p q <= euclideanDistance p' q')%R.
Proof.
  intros H. unfold euclideanDistance. apply sqrt_le_1_alt. now apply IZR_le.
Qed.

Lemma distance_lt (p q p' q' : ColorPoint) :
  sqdist p q < sqdist p' q' ->
  (euclideanDistance p q < euclideanDistance p' q')%R.
Proof.
  intros H. unfold euclideanDistance. apply sqrt_lt_1_alt. split.
  - apply IZR_le. apply sqdist_nonneg.
  - now apply IZR_lt.
Qed.

(** [Math.sqrt(d) > 1] against [d > 1]. *)
Lemma distance_gt_1 (p q : ColorPoint) :
  (1 <? sqdist p q) = false <-> (euclideanDistance p q <= 1)%R.
Proof.
  unfold euclideanDistance. rewrite Z.ltb_ge. split.
  - intros H. rewrite <- sqrt_1. apply sqrt_le_1_alt. now apply IZR_le.
  - intros H. destruct (Z.le_gt_cases (sqdist p q) 1) as [|Hgt]; [assumption|].
    exfalso. apply (Rlt_irrefl 1).
    apply Rlt_le_trans with (2 := H).
    rewrite <- sqrt_1 at 1. apply sqrt_lt_1_alt. split.
    + apply Rle_0_1.
    + now apply IZR_lt.
Qed.

Lemma nearest_some (centers : list Slot) (pixel : ColorPoint) :
  centers <> [] -> Forall (fun c => c <> None) centers ->
  exists t, nearest centers pixel = Some t /\ (t < length centers)%nat.
Proof.
  intros Hne Hdef. unfold nearest.
  destruct (distances_to_spec centers pixel) as [(cs & -> & ->)|[_ Hin]].
  - destruct (@target_index_some (map (fun c => sqdist c pixel) cs))
      as (t & Ht & Hlt).
    { destruct cs; [now destruct Hne | discriminate]. }
    exists t. split; [exact Ht|]. now rewrite !length_map in *.
  - rewrite Forall_forall in Hdef. now destruct (Hdef None Hin).
Qed.

(** The center a pixel goes to is the first one at the least distance. *)
Lemma nearest_first_min (centers : list Slot) (pixel : ColorPoint) (t : nat) :
  nearest centers pixel = Some t ->
  exists c,
    nth_error centers t = Some (Some c)
    /\ forall j c', nth_error centers j = Some (Some c') ->
         (euclideanDistance c pixel <= euclideanDistance c' pixel)%R
         /\ ((j < t)%nat ->
             (euclideanDistance c pixel < euclideanDistance c' pixel)%R).
Proof.
  unfold nearest.
  destruct (distances_to_spec centers pixel) as [(cs & -> & ->)|[-> _]];
    [|discriminate].
  intros Ht. destruct (target_index_first_min _ Ht) as (m & Hm & Hmin).
  rewrite nth_error_map in Hm.
  destruct (nth_error cs t) as [c|] eqn:Hc; [|discriminate].
  injection Hm as <-. exists c. split.
  - rewrite nth_error_map, Hc. reflexivity.
  - intros j c' Hj. rewrite nth_error_map in Hj.
    destruct (nth_error cs j) as [c''|] eqn:Hc'; [|discriminate].
    injection Hj as ->.
    destruct (Hmin j (sqdist c' pixel)) as [Hle Hlt].
    { rewrite nth_error_map, Hc'. reflexivity. }
    split; [now apply distance_le | intros H; now apply distance_lt; auto].
Qed.

(** ** The convergence test *)

Lemma converged_from_true (pending : list ColorPoint) (i : nat)
    (new_centers : list Slot) :
  converged_from pending i new_centers = Ok true
  <-> forall j, (j < length pending)%nat ->
        exists o c, nth_error pending j = Some o
                    /\ nth_error new_centers (i + j) = Some (Some c)
                    /\ (euclideanDistance o c <= 1)%R.
Proof.
  revert i. induction pending as [|old rest IH]; intros i; simpl.
  - split; [intros _ j Hj; lia | reflexivity].
  - split.
    + intros H.
      destruct (nth i new_centers None) as [c|] eqn:Hc; [|discriminate].
      destruct (1 <? sqdist old c) eqn:Hd; [discriminate|].
      intros [|j] Hj.
      * exists old, c. split; [reflexivity|]. split.
        -- rewrite Nat.add_0_r.
           destruct (nth_error new_centers i) as [x|] eqn:Hx.
           ++ apply (nth_error_nth _ _ None) in Hx.
              f_equal. now transitivity (nth i new_centers None).
           ++ apply nth_error_None in Hx.
              rewrite nth_overflow in Hc by assumption. discriminate.
        -- now apply distance_gt_1.
      * destruct (proj1 (IH (S i)) H j ltac:(lia)) as (o & c' & H1 & H2 & H3).
        exists o, c'. split; [exact H1|]. split; [|exact H3].
        now replace (i + S j)%nat with (S i + j)%nat by lia.
    + intros H.
      destruct (H O ltac:(lia)) as (o & c & Ho & Hc & Hd).
      simpl in Ho. injection Ho as <-. rewrite Nat.add_0_r in Hc.
      rewrite (nth_error_nth _ _ None Hc).
      apply distance_gt_1 in Hd. rewrite Hd.
      apply IH. intros j Hj.
      destruct (H (S j) ltac:(lia)) as (o & c' & H1 & H2 & H3).
      exists o, c'. split; [exact H1|]. split; [|exact H3].
      now replace (S i + j)%nat with (i + S j)%nat by lia.
Qed.

Lemma converged_from_defined (pending : list ColorPoint) (i : nat)
    (new_centers : list Slot) :
  Forall (fun c => c <> None) new_centers ->
  (i + length pending <= length new_centers)%nat ->
  converged_from pending i new_centers <> Throw.
Proof.
  intros Hdef. revert i. induction pending as [|old rest IH]; intros i; simpl.
  - discriminate.
  - intros Hlen. destruct (nth i new_centers None) as [c|] eqn:Hc.
    + destruct (1 <? sqdist old c); [discriminate | apply IH; lia].
    + rewrite Forall_forall in Hdef. exfalso.
      apply (Hdef None); [|reflexivity].
      rewrite <- Hc. apply nth_In. lia.
Qed.

(** ** Whole runs *)

Section KmeansRuns.

Variable rnd : nat -> Q.

(** The shuffle draws numbers and logs nothing. *)
Lemma array_sort_shuffle_trace (pixels : list ColorPoint) (s : state) :
  trace (snd (array_sort (shuffle_compare rnd) pixels s)) = trace s.
Proof. apply array_sort_view. intros x y s0. reflexivity. Qed.

Lemma kmeans_unfold (fuel : nat) (pixels : list ColorPoint) (k : nat)
    (max_iterations : Z) (s : state) :
  kmeans rnd fuel pixels k max_iterations s
  = let run :=
      kmeans_loop rnd fuel (shuffled rnd pixels s) k max_iterations
        (map Some (firstn k (shuffled rnd pixels s))) [] 0
        (loop_start rnd pixels k s) in
    (match fst run with
     | Ok r => Ok (r, shuffled rnd pixels s)
     | Throw => Throw
     | OutOfFuel => OutOfFuel
     end, snd run).
Proof.
  unfold kmeans, loop_start, shuffled.
  pose proof (array_sort_shuffle_trace pixels s) as Ht.
  destruct (array_sort (shuffle_compare rnd) pixels s) as [sorted s1].
  cbn [fst snd] in *. unfold bind at 1. cbn [emit]. unfold bind at 1.
  rewrite Ht.
  destruct (kmeans_loop rnd fuel sorted k max_iterations
              (map Some (firstn k sorted)) [] 0 _) as [[r| |] s'];
    reflexivity.
Qed.

Lemma shuffled_permutation (pixels : list ColorPoint) (s : state) :
  Permutation pixels (shuffled rnd pixels s).
Proof. apply array_sort_permutation. Qed.

Lemma kmeans_trace (fuel : nat) (pixels : list ColorPoint) (k : nat)
    (max_iterations : Z) :
  exists added,
    trace (snd (kmeans rnd fuel pixels k max_iterations initial_state))
    = added ++ [Initialized
                  (map Some (firstn k (shuffled rnd pixels initial_state)))]
    /\ Forall (pass_event (shuffled rnd pixels initial_state) k) added.
Proof.
  rewrite kmeans_unfold. cbn [snd].
  destruct (kmeans_loop_trace rnd (shuffled rnd pixels initial_state) k
              max_iterations fuel
              (map Some (firstn k (shuffled rnd pixels initial_state))) [] 0
              (loop_start rnd pixels k initial_state))
    as [(added & Hadd & Hall) _].
  exists added. split; [exact Hadd | exact Hall].
Qed.

End KmeansRuns.

(** C1, as the claim states it, fails: the shuffle sorts the caller's array
    itself.  When [Math.random()] answers 0.9 the comparator answers -0.4
    to [comparefn(white, black)], the engine takes the two elements for a
    descending run and reverses it: the array [[black, white]] is left as
    [[white, black]]. *)
Lemma kmeans_input_order_counterexample :
  exists centers after s',
    kmeans (fun _ => 9 # 10) 102 [(0, 0, 0); (255, 255, 255)] 1 100
      initial_state
    = (Ok (centers, after), s')
    /\ centers = [Some (128, 128, 128)]
    /\ after = [(255, 255, 255); (0, 0, 0)]
    /\ after <> [(0, 0, 0); (255, 255, 255)].
Proof.
  eexists. eexists. eexists. split; [vm_compute; reflexivity|].
  split; [reflexivity|]. split; [reflexivity | discriminate].
Qed.

(** C1, amended. [kmeans] sorts the caller's array in place with the random
    comparator and takes no copy of it: after a call that returns, the
    array is what that sort made of it, a permutation of what it was, with
    the same points but not always in the same order. *)
Theorem kmeans_permutes_input
    (rnd : nat -> Q) (fuel : nat) (pixels : list ColorPoint) (k : nat)
    (max_iterations : Z) (s s' : state)
    (centers : list Slot) (after : list ColorPoint)
    (Hrun : kmeans rnd fuel pixels k max_iterations s
            = (Ok (centers, after), s')) :
  after = fst (array_sort (shuffle_compare rnd) pixels s)
  /\ Permutation pixels after.
Proof.
  rewrite kmeans_unfold in Hrun. cbv zeta in Hrun.
  destruct (fst (kmeans_loop rnd fuel (shuffled rnd pixels s) k
                   max_iterations
                   (map Some (firstn k (shuffled rnd pixels s))) [] 0
                   (loop_start rnd pixels k s))) as [r| |];
    try discriminate.
  injection Hrun as _ <- _. split; [reflexivity|].
  apply shuffled_permutation.
Qed.

Lemma kmeans_permutes_input_witness :
  exists s',
    kmeans (fun _ => 9 # 10) 102 [(0, 0, 0); (255, 255, 255)] 1 100
      initial_state
    = (Ok ([Some (128, 128, 128)], [(255, 255, 255); (0, 0, 0)]), s')
    /\ Permutation [(0, 0, 0); (255, 255, 255)]
         [(255, 255, 255); (0, 0, 0)].
Proof.
  eexists. split; [vm_compute; reflexivity|].
  exact (proj2 (@kmeans_permutes_input (fun _ => 9 # 10) 102
                  [(0, 0, 0); (255, 255, 255)] 1 100 initial_state
                  _ [Some (128, 128, 128)] [(255, 255, 255); (0, 0, 0)]
                  ltac:(vm_compute; reflexivity))).
Defined.

(** C3. For every array of pixels, every [k] and every non-negative
    [max_iterations], the loop of [kmeans] comes to an end, with the same
    outcome whatever fuel above [max_iterations + 1] it is given, having
    begun at most [max_iterations + 1] passes. *)
Theorem kmeans_terminates
    (rnd : nat -> Q) (pixels : list ColorPoint) (k : nat)
    (max_iterations : Z) (Hmax : 0 <= max_iterations) :
  exists out s',
    (forall fuel, (Z.to_nat (max_iterations + 1) < fuel)%nat ->
       kmeans rnd fuel pixels k max_iterations initial_state = (out, s'))
    /\ out <> OutOfFuel
    /\ Z.of_nat (passes (trace s')) <= max_iterations + 1.
Proof.
  set (budget := Z.to_nat (max_iterations + 1)).
  pose proof (fun fuel =>
    @kmeans_loop_bounded rnd (shuffled rnd pixels initial_state) k
      max_iterations budget fuel
      (map Some (firstn k (shuffled rnd pixels initial_state))) []
      0 (loop_start rnd pixels k initial_state)
      ltac:(unfold budget; lia)) as Hloop.
  exists (fst (kmeans rnd (S budget) pixels k max_iterations initial_state)),
         (snd (kmeans rnd (S budget) pixels k max_iterations initial_state)).
  split; [|split].
  - intros fuel Hfuel. destruct (Hloop fuel Hfuel) as (Heq & _).
    rewrite !kmeans_unfold. cbv zeta. rewrite Heq. reflexivity.
  - destruct (Hloop (S budget) ltac:(lia)) as (_ & Hne & _).
    rewrite kmeans_unfold. cbv zeta. cbn [fst].
    destruct (fst (kmeans_loop rnd (S budget) _ k max_iterations _ [] 0 _));
      congruence.
  - destruct (Hloop (S budget) ltac:(lia)) as (_ & _ & Hcount).
    rewrite kmeans_unfold. cbv zeta. cbn [snd].
    unfold loop_start at 2 in Hcount. cbn [trace initial_state] in Hcount.
    unfold passes at 2 in Hcount. cbn [filter length] in Hcount. lia.
Qed.

Lemma kmeans_terminates_witness :
  exists out s',
    kmeans (fun _ => 0%Q) 102 [(0, 0, 0); (255, 255, 255)] 1 100 initial_state
    = (out, s')
    /\ out <> OutOfFuel
    /\ Z.of_nat (passes (trace s')) <= 100 + 1.
Proof.
  destruct (@kmeans_terminates (fun _ => 0%Q) [(0, 0, 0); (255, 255, 255)]
              1%nat 100 ltac:(lia)) as (out & s' & Hrun & Hout & Hcount).
  exists out, s'. split; [apply Hrun; simpl; lia | split; assumption].
Defined.

(** C4. For every array of [N] pixels and every [k <= N], the centers of
    [kmeans] are exactly [k] at initialization and after every pass, and so
    is the sequence a run returns. *)
Theorem kmeans_center_count
    (rnd : nat -> Q) (fuel : nat) (pixels : list ColorPoint) (k : nat)
    (max_iterations : Z) (Hk : (k <= length pixels)%nat) :
  (forall cs,
     In (Initialized cs)
        (trace (snd (kmeans rnd fuel pixels k max_iterations initial_state)))
     -> length cs = k)
  /\ (forall cs,
        In (Updated cs)
           (trace (snd (kmeans rnd fuel pixels k max_iterations
                          initial_state)))
        -> length cs = k)
  /\ (forall r after,
        fst (kmeans rnd fuel pixels k max_iterations initial_state)
        = Ok (r, after) -> length r = k).
Proof.
  assert (Hinit : length (map Some
                            (firstn k (shuffled rnd pixels initial_state)))
                  = k).
  { rewrite length_map, length_firstn.
    rewrite <- (Permutation_length (shuffled_permutation rnd pixels
                                      initial_state)). lia. }
  destruct (kmeans_trace rnd fuel pixels k max_iterations)
    as (added & Htrace & Hall).
  rewrite Forall_forall in Hall.
  split; [|split].
  - intros cs Hin. rewrite Htrace in Hin. apply in_app_or in Hin.
    destruct Hin as [Hin|[Hin|[]]].
    + destruct (Hall _ Hin).
    + injection Hin as <-. exact Hinit.
  - intros cs Hin. rewrite Htrace in Hin. apply in_app_or in Hin.
    destruct Hin as [Hin|[Hin|[]]].
    + exact (Hall _ Hin).
    + discriminate Hin.
  - intros r after Hrun. rewrite kmeans_unfold in Hrun. cbv zeta in Hrun.
    cbn [fst] in Hrun.
    destruct (kmeans_loop_trace rnd (shuffled rnd pixels initial_state) k
                max_iterations fuel
                (map Some (firstn k (shuffled rnd pixels initial_state)))
                [] 0 (loop_start rnd pixels k initial_state)) as [_ Hr].
    destruct (fst (kmeans_loop rnd fuel _ k max_iterations _ [] 0 _))
      as [r'| |]; try discriminate.
    injection Hrun as <- _.
    destruct (Hr r' eq_refl) as [->|H]; [exact Hinit | exact H].
Qed.

Lemma kmeans_center_count_witness :
  exists r after,
    fst (kmeans (fun _ => 0%Q) 102 [(0, 0, 0); (255, 255, 255)] 1 100
           initial_state) = Ok (r, after)
    /\ length r = 1%nat.
Proof.
  assert (Hk : (1 <= length [(0, 0, 0); (255, 255, 255)])%nat)
    by (simpl; lia).
  assert (Hrun : fst (kmeans (fun _ => 0%Q) 102 [(0, 0, 0); (255, 255, 255)]
                        1 100 initial_state)
                 = Ok ([Some (128, 128, 128)], [(0, 0, 0); (255, 255, 255)]))
    by (vm_compute; reflexivity).
  exists [Some (128, 128, 128)], [(0, 0, 0); (255, 255, 255)].
  split; [exact Hrun|].
  exact (proj2 (proj2 (@kmeans_center_count (fun _ => 0%Q) 102
                         [(0, 0, 0); (255, 255, 255)] 1 100 Hk))
           _ _ Hrun).
Defined.

Lemma nth_repeat_nil (T : Type) (k i : nat) :
  nth i (repeat (@nil T) k) [] = [].
Proof.
  revert i. induction k as [|k IH]; intros [|i]; simpl; auto.
Qed.

Lemma concat_repeat_nil (T : Type) (k : nat) :
  concat (repeat (@nil T) k) = [].
Proof. induction k; simpl; auto. Qed.

(** C5. In every assignment step of every run of [kmeans], the [k] clusters
    partition the array: each pixel goes to one cluster, that of the first
    center at the least distance from it, cluster [i] holds exactly the
    pixels that go to [i], and the clusters together are a permutation of
    the input. *)
Theorem kmeans_assignment_partitions
    (rnd : nat -> Q) (fuel : nat) (pixels : list ColorPoint) (k : nat)
    (max_iterations : Z) (centers : list Slot)
    (clusters : list (list ColorPoint))
    (Hstep : In (Assigned centers clusters)
               (trace (snd (kmeans rnd fuel pixels k max_iterations
                              initial_state)))) :
  length clusters = k
  /\ Permutation (concat clusters) pixels
  /\ (forall p, In p pixels ->
        exists t c,
          nearest centers p = Some t
          /\ (t < k)%nat
          /\ nth_error centers t = Some (Some c)
          /\ forall j c', nth_error centers j = Some (Some c') ->
               (euclideanDistance c p <= euclideanDistance c' p)%R
               /\ ((j < t)%nat ->
                   (euclideanDistance c p < euclideanDistance c' p)%R))
  /\ (forall i,
        nth i clusters []
        = filter (assigned_to centers i) (shuffled rnd pixels initial_state)).
Proof.
  destruct (kmeans_trace rnd fuel pixels k max_iterations)
    as (added & Htrace & Hall).
  rewrite Forall_forall in Hall.
  rewrite Htrace in Hstep. apply in_app_or in Hstep.
  destruct Hstep as [Hin|[Hin|[]]]; [|discriminate Hin].
  pose proof (Hall _ Hin) as Hassign. cbn [pass_event] in Hassign.
  pose proof (assign_all_spec centers (shuffled rnd pixels initial_state)
                (repeat [] k)) as Hspec.
  rewrite Hassign in Hspec. destruct Hspec as (Hlen & Hperm & Hnear & Hnth).
  rewrite repeat_length in *. rewrite concat_repeat_nil in Hperm.
  pose proof (shuffled_permutation rnd pixels initial_state) as Hsh.
  split; [exact Hlen|]. split.
  { rewrite Hperm. simpl. now apply Permutation_sym. }
  split.
  - intros p Hp.
    destruct (Hnear p (Permutation_in _ Hsh Hp)) as (t & Ht & Hlt).
    destruct (nearest_first_min _ _ Ht) as (c & Hc & Hmin).
    exists t, c. auto.
  - intros i. rewrite Hnth, nth_repeat_nil. reflexivity.
Qed.

Lemma kmeans_assignment_partitions_witness :
  Permutation (concat [[(255, 255, 255); (0, 0, 0)]])
    [(0, 0, 0); (255, 255, 255)].
Proof.
  assert (Hstep : In (Assigned [Some (255, 255, 255)]
                        [[(255, 255, 255); (0, 0, 0)]])
                    (trace (snd (kmeans (fun _ => 9 # 10) 102
                                   [(0, 0, 0); (255, 255, 255)] 1 100
                                   initial_state)))).
  { vm_compute. do 4 right. left. reflexivity. }
  exact (proj1 (proj2 (kmeans_assignment_partitions _ _ _ _ _ _ _ Hstep))).
Defined.

Lemma first_pass_runs (rnd : nat -> Q) (pixels : list ColorPoint) (k : nat)
    (s : state) :
  (1 <= k)%nat ->
  exists old' centers' clusters s',
    kmeans_pass rnd pixels k (map Some (firstn k pixels)) s
    = (Ok (old', centers'), s')
    /\ trace s' = Updated centers'
                    :: Assigned (map Some (firstn k pixels)) clusters
                    :: PassBegun :: trace s.
Proof.
  intros Hk.
  pose proof (kmeans_pass_spec rnd pixels k (map Some (firstn k pixels)) s)
    as Hpass.
  destruct (kmeans_pass rnd pixels k (map Some (firstn k pixels)) s)
    as [[[old' cs']| |] s1].
  - destruct Hpass as (_ & _ & _ & clusters & _ & Ht).
    exists old', cs', clusters, s1. auto.
  - exfalso. destruct Hpass as [_ [Hin|Hthrow]].
    + apply in_map_iff in Hin. destruct Hin as (x & Hx & _). discriminate.
    + pose proof (assign_all_spec (map Some (firstn k pixels)) pixels
                    (repeat [] k)) as Hspec.
      rewrite Hthrow in Hspec. destruct Hspec as (p & Hp & Hcase).
      destruct (@nearest_some (map Some (firstn k pixels)) p)
        as (t & Ht & Hlt).
      * destruct pixels; [destruct Hp|]. destruct k; [lia | discriminate].
      * apply Forall_forall. intros c Hc. apply in_map_iff in Hc.
        destruct Hc as (x & <- & _). discriminate.
      * rewrite length_map, length_firstn, repeat_length in *.
        destruct Hcase as [Hnone|(u & Hu & Hlu)]; [congruence|].
        assert (u = t) by congruence. lia.
  - contradiction.
Qed.

(** C7. The convergence test is false on an empty [old_centers]; on a
    non-empty one it is true exactly when every old center has a new
    center at its index within Euclidean distance 1.  With a non-negative
    [max_iterations], [kmeans] therefore begins at least one pass, and with
    a positive [k] it carries the assignment and the update of that pass
    through. *)
Theorem isConverged_pairwise
    (rnd : nat -> Q) (fuel : nat) (pixels : list ColorPoint) (k : nat)
    (max_iterations : Z) (old_centers : list ColorPoint)
    (new_centers : list Slot)
    (Hmax : 0 <= max_iterations) (Hfuel : (0 < fuel)%nat) :
  isConverged [] new_centers = Ok false
  /\ (isConverged old_centers new_centers = Ok true
      <-> old_centers <> []
          /\ forall i, (i < length old_centers)%nat ->
               exists o c,
                 nth_error old_centers i = Some o
                 /\ nth_error new_centers i = Some (Some c)
                 /\ (euclideanDistance o c <= 1)%R)
  /\ (1 <= passes (trace (snd (kmeans rnd fuel pixels k max_iterations
                                 initial_state))))%nat
  /\ ((1 <= k)%nat ->
      exists centers clusters centers',
        In (Assigned centers clusters)
           (trace (snd (kmeans rnd fuel pixels k max_iterations
                          initial_state)))
        /\ In (Updated centers')
             (trace (snd (kmeans rnd fuel pixels k max_iterations
                            initial_state)))).
Proof.
  split; [reflexivity|]. split.
  { destruct old_centers as [|o rest].
    - split; [discriminate | intros [H _]; congruence].
    - unfold isConverged. rewrite converged_from_true. split.
      + intros H. split; [discriminate | exact H].
      + intros [_ H]. exact H. }
  destruct fuel as [|f]; [lia|].
  rewrite kmeans_unfold. cbv zeta. cbn [snd].
  rewrite kmeans_loop_unfold. cbn [isConverged].
  destruct (Z.leb_spec 0 max_iterations) as [_|]; [|lia].
  set (sorted := shuffled rnd pixels initial_state).
  set (s0 := loop_start rnd pixels k initial_state).
  pose proof (kmeans_pass_spec rnd sorted k (map Some (firstn k sorted)) s0)
    as Hpass.
  pose proof (@first_pass_runs rnd sorted k s0) as Hfirst.
  destruct (kmeans_pass rnd sorted k (map Some (firstn k sorted)) s0)
    as [[[old' cs']| |] s1].
  - destruct Hpass as (_ & _ & _ & clusters & _ & Ht). cbn [fst snd].
    destruct (kmeans_loop_trace rnd sorted k max_iterations f cs' old'
                (0 + 1) s1) as [(added & Hadd & _) _].
    rewrite Hadd, Ht. split.
    + unfold passes. rewrite filter_app, length_app. simpl. lia.
    + intros _. exists (map Some (firstn k sorted)), clusters, cs'.
      split; apply in_or_app; right; simpl; auto.
  - destruct Hpass as [Ht _]. cbn [snd]. split.
    + rewrite Ht. unfold passes. simpl. lia.
    + intros Hk. destruct (Hfirst Hk) as (? & ? & ? & ? & H & _).
      discriminate H.
  - contradiction.
Qed.

Lemma isConverged_pairwise_witness :
  isConverged [] [Some (0, 0, 0)] = Ok false
  /\ (1 <= passes (trace (snd (kmeans (fun _ => 0%Q) 102
                                 [(0, 0, 0); (255, 255, 255)]%Z 1 100%Z
                                 initial_state))))%nat.
Proof.
  destruct (@isConverged_pairwise (fun _ => 0%Q) 102
              [(0, 0, 0); (255, 255, 255)] 1 100 [(0, 0, 0)]
              [Some (0, 0, 0)] ltac:(lia) ltac:(lia))
    as (H1 & _ & H3 & _).
  split; [exact H1 | exact H3].
Defined.

(** ** Runs on the inputs of the data model return *)

Lemma kmeans_loop_succeeds (rnd : nat -> Q) (pixels : list ColorPoint)
    (k : nat) (max_iterations : Z) :
  pixels <> [] -> (1 <= k)%nat -> unit_interval rnd ->
  forall (fuel : nat) (centers : list Slot) (old : list ColorPoint)
         (iterations : Z) (s : state),
    centers <> [] -> Forall (fun c => c <> None) centers ->
    (length centers <= k)%nat -> (length old <= length centers)%nat ->
    fst (kmeans_loop rnd fuel pixels k max_iterations centers old
           iterations s) <> Throw.
Proof.
  intros Hne Hk Hrnd.
  induction fuel as [|f IH]; intros centers old iterations s Hc Hdef Hlen Hold.
  - discriminate.
  - rewrite kmeans_loop_unfold.
    assert (Hconv : isConverged old centers <> Throw).
    { unfold isConverged. destruct old; [discriminate|].
      apply converged_from_defined; [exact Hdef | simpl in *; lia]. }
    destruct (isConverged old centers) as [[|]| |]; try discriminate;
      [|congruence].
    destruct (iterations <=? max_iterations); [|discriminate].
    pose proof (kmeans_pass_spec rnd pixels k centers s) as Hpass.
    destruct (kmeans_pass rnd pixels k centers s) as [[[old' cs']| |] s1].
    + destruct Hpass as (Hmap & Hk' & Hdef' & _). cbn [fst snd].
      apply IH.
      * destruct cs'; [simpl in Hk'; lia | discriminate].
      * now apply Hdef'.
      * lia.
      * rewrite Hmap, length_map in Hlen. lia.
    + exfalso. destruct Hpass as [_ [Hin|Hthrow]].
      * rewrite Forall_forall in Hdef. now apply (Hdef None Hin).
      * pose proof (assign_all_spec centers pixels (repeat [] k)) as Hspec.
        rewrite Hthrow in Hspec. destruct Hspec as (p & Hp & Hcase).
        destruct (@nearest_some centers p Hc Hdef) as (t & Ht & Hlt).
        rewrite repeat_length in Hcase.
        destruct Hcase as [Hnone|(u & Hu & Hlu)]; [congruence|].
        assert (u = t) by congruence. lia.
    + contradiction.
Qed.

(** On a non-empty array, with a positive [k], a non-negative
    [max_iterations] and an oracle within [0, 1), [kmeans] returns. *)
Lemma kmeans_returns (rnd : nat -> Q) (pixels : list ColorPoint) (k : nat)
    (max_iterations : Z) :
  pixels <> [] -> (1 <= k)%nat -> unit_interval rnd -> 0 <= max_iterations ->
  exists r s',
    forall fuel, (Z.to_nat (max_iterations + 1) < fuel)%nat ->
      kmeans rnd fuel pixels k max_iterations initial_state
      = (Ok (r, shuffled rnd pixels initial_state), s').
Proof.
  intros Hne Hk Hrnd Hmax.
  set (fuel0 := S (Z.to_nat (max_iterations + 1))).
  set (sorted := shuffled rnd pixels initial_state).
  assert (Hsorted : sorted <> []).
  { intros E. apply Hne.
    apply Permutation_nil, Permutation_sym. rewrite <- E.
    apply shuffled_permutation. }
  pose proof (@kmeans_loop_succeeds rnd sorted k max_iterations Hsorted Hk
                Hrnd fuel0 (map Some (firstn k sorted)) [] 0
                (loop_start rnd pixels k initial_state)) as Hok.
  pose proof (fun fuel =>
    @kmeans_loop_bounded rnd sorted k max_iterations
      (Z.to_nat (max_iterations + 1)) fuel
      (map Some (firstn k sorted)) [] 0
      (loop_start rnd pixels k initial_state) ltac:(lia)) as Hloop.
  destruct (Hloop fuel0 ltac:(unfold fuel0; lia)) as (_ & Hfuel & _).
  destruct (kmeans_loop rnd fuel0 sorted k max_iterations
              (map Some (firstn k sorted)) [] 0
              (loop_start rnd pixels k initial_state)) as [out s'] eqn:Hrun.
  cbn [fst] in *.
  destruct out as [r| |]; [|exfalso|congruence].
  - exists r, s'. intros fuel Hf. rewrite kmeans_unfold. cbv zeta.
    fold sorted. destruct (Hloop fuel Hf) as (-> & _).
    fold fuel0. rewrite Hrun. reflexivity.
  - apply Hok; try reflexivity.
    + destruct sorted; [congruence|]. destruct k; [lia | discriminate].
    + apply Forall_forall. intros c Hc. apply in_map_iff in Hc.
      destruct Hc as (x & <- & _). discriminate.
    + rewrite length_map, length_firstn. lia.
    + simpl. lia.
Qed.

(** The bound of [max_iterations + 1] passes is reached: three pixels of
    which two are equal, three clusters, and an oracle that re-seeds the
    empty cluster with a different pixel each time. *)
Example kmeans_budget_reached :
  passes (trace (snd (kmeans (fun n => if Nat.even n then 9 # 10 else 0%Q)
                        10 [(0, 0, 0); (100, 0, 0); (100, 0, 0)] 3 3
                        initial_state))) = 4%nat.
Proof. vm_compute. reflexivity. Qed.

(** * Further properties of the code *)

(** ** The distance *)

Lemma sqdist_sym (p q : ColorPoint) : sqdist p q = sqdist q p.
Proof.
  destruct p as [[r1 g1] b1], q as [[r2 g2] b2]. unfold sqdist. ring.
Qed.

Lemma sqdist_zero (p q : ColorPoint) : sqdist p q = 0 <-> p = q.
Proof.
  destruct p as [[r1 g1] b1], q as [[r2 g2] b2]. unfold sqdist.
  rewrite !Z.pow_2_r. split.
  - intros H.
    pose proof (Z.square_nonneg (r1 - r2)).
    pose proof (Z.square_nonneg (g1 - g2)).
    pose proof (Z.square_nonneg (b1 - b2)).
    assert (r1 - r2 = 0) by nia. assert (g1 - g2 = 0) by nia.
    assert (b1 - b2 = 0) by nia.
    repeat f_equal; lia.
  - intros [= -> -> ->]. ring.
Qed.

Lemma distance_zero (p q : ColorPoint) :
  euclideanDistance p q = 0%R <-> p = q.
Proof.
  unfold euclideanDistance. split.
  - intros H. apply sqdist_zero. apply eq_IZR.
    apply sqrt_eq_0; [|exact H]. apply IZR_le, sqdist_nonneg.
  - intros ->. replace (sqdist q q) with 0.
    + apply sqrt_0.
    + symmetry. now apply sqdist_zero.
Qed.

(** X1. [euclideanDistance] is symmetric, never negative, and zero exactly
    between a point and itself. *)
Theorem euclideanDistance_symmetric_definite (p q : ColorPoint) :
  euclideanDistance p q = euclideanDistance q p
  /\ (0 <= euclideanDistance p q)%R
  /\ (euclideanDistance p q = 0%R <-> p = q).
Proof.
  split; [unfold euclideanDistance; now rewrite sqdist_sym|].
  split; [apply sqrt_pos | apply distance_zero].
Qed.

(** ** Integer-valued numbers *)

Lemma Qred_inject_Z (z : Z) : Qred (inject_Z z) = inject_Z z.
Proof. apply Qcanon.Qred_identity. simpl. apply Z.gcd_1_r. Qed.

Lemma Qred_integer (q : Q) (z : Z) : q == inject_Z z -> Qred q = inject_Z z.
Proof.
  intros H. rewrite <- Qred_inject_Z. now apply Qred_complete.
Qed.

Lemma add_of_Z (a b : Z) : (of_Z a + of_Z b)%num = of_Z (a + b).
Proof.
  unfold Num.add, of_Z. f_equal. apply Qred_integer.
  now rewrite inject_Z_plus.
Qed.

Lemma Qfloor_half (z : Z) : Qfloor (inject_Z z + (1 # 2)) = z.
Proof.
  unfold Qfloor, Qplus, inject_Z. simpl.
  symmetry. apply Z.div_unique with (r := 1); lia.
Qed.

(** Rounding keeps a number between the integers that bound it. *)
Lemma round_between (q : Q) (lo hi : Z) :
  (inject_Z lo <= q)%Q -> (q <= inject_Z hi)%Q ->
  exists h, Num.round (Fin q) = of_Z h /\ lo <= h <= hi.
Proof.
  intros Hlo Hhi. exists (Qfloor (q + (1 # 2))). split; [reflexivity|].
  split.
  - rewrite <- (Qfloor_half lo). apply Qfloor_resp_le.
    now apply Qplus_le_l.
  - rewrite <- (Qfloor_half hi). apply Qfloor_resp_le.
    now apply Qplus_le_l.
Qed.

Lemma Qtrunc_small (q : Q) : (- (1) < q)%Q -> (q < 1)%Q -> Num.Qtrunc q = 0.
Proof.
  destruct q as [n d]. unfold Qlt, Num.Qtrunc. simpl. intros H1 H2.
  apply Z.quot_small_iff; lia.
Qed.

(** ** Hue *)

Lemma div_of_Z (a d : Z) :
  d <> 0 -> (of_Z a / of_Z d)%num = Fin (Qred (inject_Z a / inject_Z d)).
Proof.
  intros Hd. unfold Num.div, of_Z, Num.is_zero. simpl Qnum.
  destruct (Z.eqb_spec d 0); [contradiction | reflexivity].
Qed.

Lemma ratio_bounds (a d lo hi : Z) :
  0 < d -> lo * d <= a <= hi * d ->
  (inject_Z lo <= inject_Z a / inject_Z d)%Q
  /\ (inject_Z a / inject_Z d <= inject_Z hi)%Q.
Proof.
  intros Hd [H1 H2].
  assert (HdQ : (0 < inject_Z d)%Q) by (unfold Qlt, inject_Z; simpl; lia).
  split.
  - apply Qle_shift_div_l; [exact HdQ|].
    rewrite <- inject_Z_mult, <- Zle_Qle. exact H1.
  - apply Qle_shift_div_r; [exact HdQ|].
    rewrite <- inject_Z_mult, <- Zle_Qle. exact H2.
Qed.

(** The last two statements of [getHue]: rounding, then wrapping a
    negative result by 360. *)
Lemma hue_wrap (q : Q) (lo hi : Z) :
  (inject_Z lo <= q)%Q -> (q <= inject_Z hi)%Q ->
  exists h0,
    lo <= h0 <= hi
    /\ (if (Num.round (Fin q) <? of_Z 0)%num
        then (Num.round (Fin q) + of_Z 360)%num
        else Num.round (Fin q))
       = of_Z (if h0 <? 0 then h0 + 360 else h0).
Proof.
  intros Hlo Hhi. destruct (round_between Hlo Hhi) as (h0 & Hround & Hh).
  exists h0. split; [exact Hh|]. rewrite Hround.
  replace (of_Z h0 <? of_Z 0)%num with (h0 <? 0).
  - destruct (h0 <? 0); [apply add_of_Z | reflexivity].
  - unfold Num.ltb, of_Z. rewrite Qle_bool_inject_Z.
    destruct (Z.ltb_spec h0 0), (Z.leb_spec 0 h0); simpl; try reflexivity; lia.
Qed.

Lemma rem_small (x : Q) :
  (- (1) < x / inject_Z 6)%Q -> (x / inject_Z 6 < 1)%Q ->
  exists y, (Fin x %% of_Z 6)%num = Fin y /\ y == x.
Proof.
  intros H1 H2. unfold Num.rem, of_Z. cbn [Num.is_zero inject_Z Qnum Z.eqb].
  eexists. split; [reflexivity|].
  change (6 # 1) with (inject_Z 6).
  rewrite (Qtrunc_small H1 H2), Qred_correct. unfold inject_Z. lra.
Qed.

Lemma mul_Fin (x : Q) (k : Z) :
  (Fin x * of_Z k)%num = Fin (Qred (x * inject_Z k)).
Proof. reflexivity. Qed.

Lemma add_Fin (x : Q) (k : Z) :
  (Fin x + of_Z k)%num = Fin (Qred (x + inject_Z k)).
Proof. reflexivity. Qed.

(** The hue of a point, sector by sector. *)
Lemma getHue_cases (r g b : Z) :
  let mx := Z.max r (Z.max g b) in
  let mn := Z.min r (Z.min g b) in
  exists h,
    getHue (r, g, b) = of_Z h
    /\ (mx = mn -> h = 0)
    /\ (mx <> mn -> mx = r -> 0 <= h <= 60 \/ 300 <= h < 360)
    /\ (mx <> mn -> mx <> r -> mx = g -> 60 <= h <= 180)
    /\ (mx <> mn -> mx <> r -> mx <> g -> 180 <= h <= 300).
Proof.
  intros mx mn. unfold getHue. fold mx mn. cbv zeta.
  destruct (Z.eqb_spec mx mn) as [E|Hne].
  { exists 0. repeat split; intros; try reflexivity; contradiction. }
  assert (Hd : 0 < mx - mn) by (unfold mx, mn in *; lia).
  destruct (Z.eqb_spec mx r) as [Er|Hnr];
    [|destruct (Z.eqb_spec mx g) as [Eg|Hng]].
  - (* red is the largest channel *)
    rewrite div_of_Z by lia.
    destruct (@ratio_bounds (g - b) (mx - mn) (-1) 1 Hd
                ltac:(unfold mx, mn in *; lia)) as [Hlo Hhi].
    set (x := (inject_Z (g - b) / inject_Z (mx - mn))%Q) in *.
    clearbody x. unfold inject_Z in Hlo, Hhi.
    destruct (@rem_small (Qred x)) as (y & -> & Hy).
    { rewrite Qred_correct. apply Qlt_shift_div_l; [reflexivity|].
      unfold inject_Z. lra. }
    { rewrite Qred_correct. apply Qlt_shift_div_r; [reflexivity|].
      unfold inject_Z. lra. }
    rewrite Qred_correct in Hy. rewrite mul_Fin.
    destruct (@hue_wrap (Qred (y * inject_Z 60)) (-60) 60) as (h0 & Hh & ->).
    + rewrite Qred_correct, Hy. unfold inject_Z. lra.
    + rewrite Qred_correct, Hy. unfold inject_Z. lra.
    + eexists. split; [reflexivity|].
      repeat split; intros; try contradiction;
        destruct (Z.ltb_spec h0 0); lia.
  - (* green is the largest channel *)
    rewrite div_of_Z by lia.
    destruct (@ratio_bounds (b - r) (mx - mn) (-1) 1 Hd
                ltac:(unfold mx, mn in *; lia)) as [Hlo Hhi].
    set (x := (inject_Z (b - r) / inject_Z (mx - mn))%Q) in *.
    clearbody x. unfold inject_Z in Hlo, Hhi.
    rewrite add_Fin, mul_Fin.
    destruct (@hue_wrap (Qred (Qred (Qred x + inject_Z 2) * inject_Z 60))
                60 180) as (h0 & Hh & ->).
    + rewrite !Qred_correct. unfold inject_Z. lra.
    + rewrite !Qred_correct. unfold inject_Z. lra.
    + eexists. split; [reflexivity|].
      repeat split; intros; try contradiction;
        destruct (Z.ltb_spec h0 0); lia.
  - (* blue is the largest channel *)
    rewrite div_of_Z by lia.
    destruct (@ratio_bounds (r - g) (mx - mn) (-1) 1 Hd
                ltac:(unfold mx, mn in *; lia)) as [Hlo Hhi].
    set (x := (inject_Z (r - g) / inject_Z (mx - mn))%Q) in *.
    clearbody x. unfold inject_Z in Hlo, Hhi.
    rewrite add_Fin, mul_Fin.
    destruct (@hue_wrap (Qred (Qred (Qred x + inject_Z 4) * inject_Z 60))
                180 300) as (h0 & Hh & ->).
    + rewrite !Qred_correct. unfold inject_Z. lra.
    + rewrite !Qred_correct. unfold inject_Z. lra.
    + eexists. split; [reflexivity|].
      repeat split; intros; try contradiction;
        destruct (Z.ltb_spec h0 0); lia.
Qed.

Lemma getHue_integer (point : ColorPoint) :
  exists h, getHue point = of_Z h.
Proof.
  destruct point as [[r g] b].
  destruct (getHue_cases r g b) as (h & Hh & _). now exists h.
Qed.

(** X4. [getHue] returns a whole number of degrees, at least 0 and below 360,
    on every point with integer channels. *)
Theorem getHue_range (point : ColorPoint) :
  exists h, getHue point = of_Z h /\ 0 <= h < 360.
Proof.
  destruct point as [[r g] b].
  destruct (getHue_cases r g b) as (h & Hh & H0 & Hr & Hg & Hb).
  exists h. split; [exact Hh|].
  destruct (Z.eq_dec (Z.max r (Z.max g b)) (Z.min r (Z.min g b))) as [E|N].
  - rewrite (H0 E). lia.
  - destruct (Z.eq_dec (Z.max r (Z.max g b)) r) as [Er|Nr].
    + destruct (Hr N Er); lia.
    + destruct (Z.eq_dec (Z.max r (Z.max g b)) g) as [Eg|Ng].
      * specialize (Hg N Nr Eg). lia.
      * specialize (Hb N Nr Ng). lia.
Qed.

(** X5. The hue lies in the sector of the largest channel: 0 on a grey point;
    within 60 degrees of 0 (that is, at most 60 or at least 300) when red
    is a largest channel; between 60 and 180 when green exceeds red and is
    a largest channel; between 180 and 300 when blue exceeds both. *)
Theorem getHue_sector (r g b : Z) :
  exists h,
    getHue (r, g, b) = of_Z h
    /\ (r = g -> g = b -> h = 0)
    /\ (g <= r -> b <= r -> 0 <= h <= 60 \/ 300 <= h < 360)
    /\ (r < g -> b <= g -> 60 <= h <= 180)
    /\ (r < b -> g < b -> 180 <= h <= 300).
Proof.
  destruct (getHue_cases r g b) as (h & Hh & H0 & Hr & Hg & Hb).
  exists h. split; [exact Hh|]. split; [|split; [|split]].
  - intros. apply H0. lia.
  - intros H1 H2.
    destruct (Z.eq_dec (Z.max r (Z.max g b)) (Z.min r (Z.min g b))) as [E|N].
    + rewrite (H0 E). lia.
    + apply Hr; [exact N | lia].
  - intros H1 H2. apply Hg; lia.
  - intros H1 H2. apply Hb; lia.
Qed.

(** X6. Adding the same amount to the three channels does not change the
    hue. *)
Theorem getHue_shift (r g b c : Z) :
  getHue (r + c, g + c, b + c) = getHue (r, g, b).
Proof.
  unfold getHue.
  rewrite !Z.add_max_distr_r, !Z.add_min_distr_r.
  set (mx := Z.max r (Z.max g b)). set (mn := Z.min r (Z.min g b)).
  replace (mx + c =? mn + c) with (mx =? mn)
    by (destruct (Z.eqb_spec mx mn), (Z.eqb_spec (mx + c) (mn + c)); lia).
  replace (mx + c =? r + c) with (mx =? r)
    by (destruct (Z.eqb_spec mx r), (Z.eqb_spec (mx + c) (r + c)); lia).
  replace (mx + c =? g + c) with (mx =? g)
    by (destruct (Z.eqb_spec mx g), (Z.eqb_spec (mx + c) (g + c)); lia).
  replace (mx + c - (mn + c)) with (mx - mn) by lia.
  replace (g + c - (b + c)) with (g - b) by lia.
  replace (b + c - (r + c)) with (b - r) by lia.
  replace (r + c - (g + c)) with (r - g) by lia.
  reflexivity.
Qed.

Lemma div_of_Z_scale (k a d : Z) :
  0 < k -> d <> 0 ->
  (of_Z (k * a) / of_Z (k * d))%num = (of_Z a / of_Z d)%num.
Proof.
  intros Hk Hd. rewrite !div_of_Z by nia. f_equal.
  apply Qred_complete. rewrite !inject_Z_mult.
  field. split; unfold Qeq, inject_Z; simpl; lia.
Qed.

(** X7. Multiplying the three channels by the same positive factor does not
    change the hue. *)
Theorem getHue_scale (k r g b : Z) (Hk : 0 < k) :
  getHue (k * r, k * g, k * b) = getHue (r, g, b).
Proof.
  unfold getHue.
  rewrite !Z.mul_max_distr_nonneg_l, !Z.mul_min_distr_nonneg_l by lia.
  set (mx := Z.max r (Z.max g b)). set (mn := Z.min r (Z.min g b)).
  replace (k * mx =? k * mn) with (mx =? mn)
    by (destruct (Z.eqb_spec mx mn), (Z.eqb_spec (k * mx) (k * mn)); nia).
  replace (k * mx =? k * r) with (mx =? r)
    by (destruct (Z.eqb_spec mx r), (Z.eqb_spec (k * mx) (k * r)); nia).
  replace (k * mx =? k * g) with (mx =? g)
    by (destruct (Z.eqb_spec mx g), (Z.eqb_spec (k * mx) (k * g)); nia).
  destruct (Z.eqb_spec mx mn) as [|Hne]; [reflexivity|].
  replace (k * mx - k * mn) with (k * (mx - mn)) by lia.
  replace (k * g - k * b) with (k * (g - b)) by lia.
  replace (k * b - k * r) with (k * (b - r)) by lia.
  replace (k * r - k * g) with (k * (r - g)) by lia.
  rewrite !div_of_Z_scale by lia. reflexivity.
Qed.

Lemma getHue_scale_witness :
  getHue (2 * 100, 2 * 40, 2 * 20) = getHue (100, 40, 20).
Proof. exact (@getHue_scale 2 100 40 20 ltac:(lia)). Defined.

(** ** Value and saturation *)

(** X8. [getValue] is never [NaN]: it is the largest channel times 100 / 255,
    which on a point of the data model lies between 0 and 100 and reaches
    100 exactly when a channel is 255. *)
Theorem getValue_percent (point : ColorPoint) :
  exists v,
    getValue point = Fin v
    /\ v == inject_Z (max_channel point) * (100 # 255)
    /\ (in_gamut point ->
        (0 <= v)%Q /\ (v <= 100)%Q
        /\ (v == 100 <-> max_channel point = 255)).
Proof.
  unfold getValue. rewrite max_list_channels.
  set (mx := max_channel point).
  exists (Qred (scaled mx * inject_Z 100)). split; [reflexivity|].
  assert (Hv : Qred (scaled mx * inject_Z 100) == inject_Z mx * (100 # 255)).
  { rewrite Qred_correct, scaled_eq.
    unfold Qeq, Qmult, inject_Z. simpl. lia. }
  split; [exact Hv|]. intros Hg. apply in_gamut_extremes in Hg.
  fold mx in Hg. rewrite Hv.
  unfold Qle, Qeq, Qmult, inject_Z. simpl. lia.
Qed.

Lemma getSaturation_canonical (point : ColorPoint) :
  0 < max_channel point ->
  getSaturation point
  = Fin (Qred (inject_Z (max_channel point - min_channel point)
               / inject_Z (max_channel point))).
Proof.
  intros Hpos. rewrite getSaturation_unfold.
  set (mx := max_channel point) in *. set (mn := min_channel point).
  unfold Num.sub, Num.neg, Num.add, Num.div.
  rewrite is_zero_scaled.
  destruct (Z.eqb_spec mx 0) as [E|_]; [lia|].
  f_equal. apply Qred_complete.
  rewrite !Qred_correct, !scaled_eq, !Qmake_Qdiv.
  unfold Z.sub. rewrite inject_Z_plus, inject_Z_opp.
  assert (Hmx : ~ inject_Z mx == 0).
  { unfold Qeq, inject_Z. simpl. lia. }
  field. exact Hmx.
Qed.

(** X10. On a point whose largest channel is positive and whose channels are
    not negative, the saturation is 0 exactly when the three channels are
    equal, and 1 exactly when some channel is 0. *)
Theorem getSaturation_extremes (point : ColorPoint)
    (Hpos : 0 < max_channel point) (Hmin : 0 <= min_channel point) :
  (getSaturation point = of_Z 0 <-> max_channel point = min_channel point)
  /\ (getSaturation point = of_Z 1 <-> min_channel point = 0).
Proof.
  rewrite getSaturation_canonical by assumption.
  set (mx := max_channel point) in *. set (mn := min_channel point) in *.
  assert (Hmx : (0 < inject_Z mx)%Q) by (unfold Qlt, inject_Z; simpl; lia).
  assert (Hne : ~ inject_Z mx == 0) by (intro E; rewrite E in Hmx; discriminate).
  assert (Hcanon : forall z : Z,
             Fin (Qred (inject_Z (mx - mn) / inject_Z mx)) = of_Z z
             <-> mx - mn = z * mx).
  { intros z. unfold of_Z. split.
    - intros E.
      assert (E' : Qred (inject_Z (mx - mn) / inject_Z mx) = inject_Z z)
        by congruence.
      assert (Hq : inject_Z (mx - mn) / inject_Z mx == inject_Z z).
      { rewrite <- (Qred_correct (_ / _)), E'. reflexivity. }
      assert (Hz : inject_Z (mx - mn) == inject_Z (z * mx)).
      { rewrite inject_Z_mult, <- Hq. field. exact Hne. }
      exact (proj1 (inject_Z_injective _ _) Hz).
    - intros E. f_equal. apply Qred_integer. rewrite E, inject_Z_mult.
      field. exact Hne. }
  split.
  - rewrite Hcanon. lia.
  - rewrite Hcanon. lia.
Qed.

Lemma getSaturation_extremes_witness :
  getSaturation (128, 0, 64) = of_Z 1.
Proof.
  apply (proj2 (@getSaturation_extremes (128, 0, 64)
                  ltac:(simpl; lia) ltac:(simpl; lia)));
    reflexivity.
Defined.

(** ** More on sorting *)

(** X11. [sortColor] is stable for a metric that is not [NaN] on any of the
    points: points with the same metric come out in the order in which they
    went in, in either direction. *)
Theorem sortColor_stable (points : list ColorPoint) (order : bool)
    (metric : ColorPoint -> num) (P : ColorPoint -> bool)
    (Hnum : forall p, In p points -> metric p <> NaN)
    (Hsame : forall a b, P a = true -> P b = true -> metric a = metric b) :
  filter P (sortColor points order metric) = filter P points.
Proof.
  destruct (@sortColor_consistent points order metric P Hnum Hsame)
    as [_ Hfilter].
  exact Hfilter.
Qed.

Lemma sortColor_stable_witness :
  filter (fun p => max_channel p =? 9)
    (sortColor [(9, 9, 0); (5, 5, 1); (9, 0, 0); (9, 5, 0)] true getValue)
  = [(9, 9, 0); (9, 0, 0); (9, 5, 0)].
Proof.
  apply (@sortColor_stable [(9, 9, 0); (5, 5, 1); (9, 0, 0); (9, 5, 0)]
           true getValue (fun p => max_channel p =? 9)).
  - intros p Hp. simpl in Hp.
    destruct Hp as [<-|[<-|[<-|[<-|[]]]]]; discriminate.
  - intros a b Ha Hb. apply Z.eqb_eq in Ha, Hb.
    unfold getValue. rewrite !max_list_channels, Ha, Hb. reflexivity.
Defined.

(** The condition on the metric is needed: [getSaturation] is [NaN] on
    black, and among greys of saturation 0 that stand around black points
    the order is not kept. *)
Example sortColor_NaN_not_stable :
  sortColor [(0, 0, 0); (0, 0, 0); (255, 0, 0); (1, 1, 1); (0, 0, 0);
             (2, 2, 2); (3, 3, 3)] true getSaturation
  = [(0, 0, 0); (0, 0, 0); (1, 1, 1); (3, 3, 3); (255, 0, 0); (0, 0, 0);
     (2, 2, 2)].
Proof. vm_compute. reflexivity. Qed.

Lemma sortColor_kept (points : list ColorPoint) (order : bool)
    (metric : ColorPoint -> num) :
  (if order then ascending metric points else descending metric points) ->
  sortColor points order metric = points.
Proof.
  intros Hs. unfold sortColor. apply array_sort_in_order.
  destruct order; apply Sorted_weaken with (2 := Hs);
    intros a b Hab s'; cbn [call_compare fst]; now apply leb_not_negative.
Qed.

(** X12. An array already in the order asked for is returned as it is. *)
Theorem sortColor_in_order (points : list ColorPoint)
    (metric : ColorPoint -> num) :
  (ascending metric points -> sortColor points true metric = points)
  /\ (descending metric points -> sortColor points false metric = points).
Proof.
  split; intros Hs; unfold sortColor; apply array_sort_in_order;
    apply Sorted_weaken with (2 := Hs); intros a b Hab s';
    cbn [call_compare fst]; now apply leb_not_negative.
Qed.

(** X13. Sorting twice is sorting once, for a metric that is not [NaN] on any
    of the points. *)
Theorem sortColor_idempotent (points : list ColorPoint) (order : bool)
    (metric : ColorPoint -> num)
    (Hnum : forall p, In p points -> metric p <> NaN) :
  sortColor (sortColor points order metric) order metric
  = sortColor points order metric.
Proof.
  pose proof (sortColor_ordered points order metric Hnum) as Hs.
  destruct order; apply sortColor_kept; exact Hs.
Qed.

Lemma sortColor_idempotent_witness :
  sortColor (sortColor [(255, 0, 0); (10, 0, 0); (30, 0, 0)] false getValue)
    false getValue
  = sortColor [(255, 0, 0); (10, 0, 0); (30, 0, 0)] false getValue.
Proof.
  apply sortColor_idempotent. intros p Hp. simpl in Hp.
  destruct Hp as [<-|[<-|[<-|[]]]]; discriminate.
Defined.

Lemma sortColor_in_order_witness :
  sortColor [(10, 0, 0); (30, 0, 0); (255, 0, 0)] true getValue
  = [(10, 0, 0); (30, 0, 0); (255, 0, 0)].
Proof.
  apply (proj1 (sortColor_in_order
                  [(10, 0, 0); (30, 0, 0); (255, 0, 0)] getValue)).
  repeat constructor.
Defined.

(** ** More on the monochromatic expansion *)

Lemma upto_nonpositive (n : Z) : n <= 0 -> upto n = [].
Proof.
  intros Hn. unfold upto. replace (Z.to_nat n) with O by lia. reflexivity.
Qed.

(** X14. With a negative [step] neither loop runs: the result is the converted
    original colour alone. *)
Theorem getMonochromaticColors_negative_step
    (RGB : Type) (hsvToRgb : num -> num -> num -> RGB)
    (point : ColorPoint) (step : Z) (Hstep : step < 0) :
  getMonochromaticColors hsvToRgb point step
  = [hsvToRgb (getHue point) (getSaturation point) (getValue point)].
Proof.
  unfold getMonochromaticColors, monochromaticHsv, downfrom.
  rewrite upto_nonpositive by lia. reflexivity.
Qed.

Lemma getMonochromaticColors_negative_step_witness :
  getMonochromaticColors (fun h s v => (h, s, v)) (128, 64, 64) (-1)
  = [(Fin 0, Fin (1 # 2), Fin (2560 # 51))].
Proof.
  exact (@getMonochromaticColors_negative_step _ (fun h s v => (h, s, v))
           (128, 64, 64) (-1) ltac:(lia)).
Defined.

(** X15. On black the saturation is [NaN], and it spreads: whatever the [step],
    every HSV triple handed to the converter has hue 0 and a [NaN]
    saturation. *)
Theorem monochromatic_black_saturation (step : Z) :
  Forall (fun e => hsv_hue e = of_Z 0 /\ hsv_saturation e = NaN)
    (monochromaticHsv (0, 0, 0) step).
Proof.
  unfold monochromaticHsv.
  change (getSaturation (0, 0, 0)) with NaN.
  change (getHue (0, 0, 0)) with (of_Z 0).
  cbn [Num.div Num.round Num.sub Num.add Num.neg].
  repeat (apply Forall_app; split).
  - apply Forall_forall. intros e He. apply in_map_iff in He.
    destruct He as (i & <- & _). split; reflexivity.
  - repeat constructor.
  - apply Forall_forall. intros e He. apply in_map_iff in He.
    destruct He as (i & <- & _). split; reflexivity.
Qed.

Lemma round_quotient (a : num) (q : Q) (n : Z) :
  a = Fin q -> n <> 0 -> exists c, Num.round (a / of_Z n)%num = of_Z c.
Proof.
  intros -> Hn. unfold Num.div, of_Z, Num.is_zero. simpl Qnum.
  destruct (Z.eqb_spec n 0); [contradiction|].
  eexists. reflexivity.
Qed.

(** X16. On a point of the data model that is not black, and for a non-negative
    [step], no [NaN] and no infinity reaches the converter, the first
    triple is (hue, 0, 100) and the last is (hue, 100, 0). *)
Theorem monochromatic_finite_endpoints
    (point : ColorPoint) (step : Z)
    (Hgamut : in_gamut point) (Hpos : 0 < max_channel point)
    (Hstep : 0 <= step) :
  Forall (fun e => exists h s v,
              e = (of_Z h, Fin s, Fin v))
    (monochromaticHsv point step)
  /\ hd_error (monochromaticHsv point step)
     = Some (getHue point, of_Z 0, of_Z 100)
  /\ last (monochromaticHsv point step) (NaN, NaN, NaN)
     = (getHue point, of_Z 100, of_Z 0).
Proof.
  destruct (getHue_integer point) as (h & Hh).
  destruct (getSaturation_value point Hpos) as (s & Hs & _).
  destruct (getValue_range point Hgamut) as (v & Hv & _).
  assert (Hn : step + 1 <> 0) by lia.
  destruct (@round_quotient (getSaturation point) s (step + 1) Hs Hn)
    as (c00 & Hc00).
  destruct (@round_quotient (of_Z 100 - getValue point)%num _ (step + 1)
              ltac:(rewrite Hv; reflexivity) Hn) as (c01 & Hc01).
  destruct (@round_quotient (of_Z 100 - getSaturation point)%num _ (step + 1)
              ltac:(rewrite Hs; reflexivity) Hn) as (c10 & Hc10).
  destruct (@round_quotient (getValue point) v (step + 1) Hv Hn)
    as (c11 & Hc11).
  unfold monochromaticHsv. rewrite Hc00, Hc01, Hc10, Hc11, Hh.
  destruct (@upto_head (step + 1) ltac:(lia)) as (rest & Hrest).
  split; [|split].
  - repeat (apply Forall_app; split).
    + apply Forall_forall. intros e He. apply in_map_iff in He.
      destruct He as (i & <- & _). eexists. eexists. eexists. reflexivity.
    + constructor; [|constructor]. rewrite Hs, Hv.
      eexists. eexists. eexists. reflexivity.
    + apply Forall_forall. intros e He. apply in_map_iff in He.
      destruct He as (i & <- & _). eexists. eexists. eexists. reflexivity.
  - rewrite Hrest. reflexivity.
  - unfold downfrom. rewrite Hrest. cbn [rev]. rewrite map_app. cbn [map].
    rewrite !app_assoc. rewrite last_last. reflexivity.
Qed.

Lemma monochromatic_finite_endpoints_witness :
  hd_error (monochromaticHsv (128, 64, 64) 3)
  = Some (getHue (128, 64, 64), of_Z 0, of_Z 100)
  /\ last (monochromaticHsv (128, 64, 64) 3) (NaN, NaN, NaN)
     = (getHue (128, 64, 64), of_Z 100, of_Z 0).
Proof.
  exact (proj2 (@monochromatic_finite_endpoints (128, 64, 64) 3
                  ltac:(simpl; lia) ltac:(simpl; lia) ltac:(lia))).
Defined.

(** ** The centroid *)

Lemma round_div_eq (x n : Z) :
  0 < n -> round_div x n = (2 * x + n) / (2 * n).
Proof.
  intros Hn. destruct n as [|p|p]; try lia.
  unfold round_div, Qfloor, Qplus, Qdiv, Qmult, Qinv, inject_Z.
  cbn [Qnum Qden]. f_equal; lia.
Qed.

Lemma round_div_bounds (x n : Z) :
  0 < n ->
  2 * n * round_div x n - n <= 2 * x < 2 * n * round_div x n + n.
Proof.
  intros Hn. rewrite round_div_eq by exact Hn.
  pose proof (Z.div_mod (2 * x + n) (2 * n) ltac:(lia)) as Hdiv.
  pose proof (Z.mod_pos_bound (2 * x + n) (2 * n) ltac:(lia)) as Hmod.
  lia.
Qed.

Lemma round_div_box (x n lo hi : Z) :
  0 < n -> lo * n <= x <= hi * n -> lo <= round_div x n <= hi.
Proof.
  intros Hn Hx. pose proof (round_div_bounds x Hn) as Hb.
  set (c := round_div x n) in *. split.
  - destruct (Z.le_gt_cases lo c) as [|Hlt]; [assumption | exfalso].
    assert (n * (c + 1) <= n * lo) by (apply Z.mul_le_mono_nonneg_l; lia).
    lia.
  - destruct (Z.le_gt_cases c hi) as [|Hgt]; [assumption | exfalso].
    assert (n * (hi + 1) <= n * c) by (apply Z.mul_le_mono_nonneg_l; lia).
    lia.
Qed.

Lemma fold_add3 (points : list ColorPoint) (a0 a1 a2 : Z) :
  fold_left add3 points (a0, a1, a2)
  = (a0 + channel_sum red points, a1 + channel_sum green points,
     a2 + channel_sum blue points).
Proof.
  revert a0 a1 a2. induction points as [|[[r g] b] rest IH];
    intros a0 a1 a2.
  - simpl. now rewrite !Z.add_0_r.
  - cbn [fold_left add3 channel_sum fold_right].
    fold (channel_sum red rest). fold (channel_sum green rest).
    fold (channel_sum blue rest).
    rewrite IH. unfold red at 2, green at 2, blue at 2. cbn [fst snd].
    f_equal; [f_equal|]; lia.
Qed.

Lemma centroid_channels (points : list ColorPoint) :
  centroid points
  = (round_div (channel_sum red points) (Z.of_nat (length points)),
     round_div (channel_sum green points) (Z.of_nat (length points)),
     round_div (channel_sum blue points) (Z.of_nat (length points))).
Proof. unfold centroid. rewrite fold_add3. reflexivity. Qed.

Lemma channel_sum_box (lo hi : Z) (points : list ColorPoint) :
  Forall (in_box lo hi) points ->
  forall channel, channel = red \/ channel = green \/ channel = blue ->
    lo * Z.of_nat (length points) <= channel_sum channel points
    <= hi * Z.of_nat (length points).
Proof.
  intros Hall channel Hc.
  induction Hall as [|[[r g] b] rest Hp Hrest IH].
  - simpl. lia.
  - cbn [channel_sum fold_right length]. fold (channel_sum channel rest).
    unfold in_box in Hp.
    assert (lo <= channel (r, g, b) <= hi)
      by (destruct Hc as [-> | [-> | ->]]; unfold red, green, blue; simpl; lia).
    lia.
Qed.

(** X17. The centroid of a non-empty cluster is its mean rounded to the nearest
    integer, a tie going up: on every channel twice the sum of the cluster
    is within [n] of [2 n] times the centroid, the upper end excluded. *)
Theorem centroid_rounded_mean (points : list ColorPoint)
    (Hne : points <> []) :
  let n := Z.of_nat (length points) in
  let c := centroid points in
  (2 * n * red c - n <= 2 * channel_sum red points < 2 * n * red c + n)
  /\ (2 * n * green c - n <= 2 * channel_sum green points
      < 2 * n * green c + n)
  /\ (2 * n * blue c - n <= 2 * channel_sum blue points < 2 * n * blue c + n).
Proof.
  intros n c. unfold c. rewrite centroid_channels. fold n.
  assert (Hn : 0 < n) by (unfold n; destruct points; [congruence | simpl; lia]).
  unfold red, green, blue. cbn [fst snd].
  repeat split; apply round_div_bounds; exact Hn.
Qed.

Lemma centroid_rounded_mean_witness :
  2 * 2 * red (centroid [(0, 0, 0); (255, 255, 255)]) - 2
  <= 2 * channel_sum red [(0, 0, 0); (255, 255, 255)].
Proof.
  exact (proj1 (proj1 (@centroid_rounded_mean [(0, 0, 0); (255, 255, 255)]
                         ltac:(discriminate)))).
Defined.

Lemma centroid_box (lo hi : Z) (points : list ColorPoint) :
  points <> [] -> Forall (in_box lo hi) points ->
  in_box lo hi (centroid points).
Proof.
  intros Hne Hall. rewrite centroid_channels.
  assert (Hn : 0 < Z.of_nat (length points))
    by (destruct points; [congruence | simpl; lia]).
  unfold in_box.
  split; [|split]; apply round_div_box; try exact Hn;
    apply (channel_sum_box Hall); auto.
Qed.

(** X18. The centroid of a non-empty cluster stays within the range of the
    channels of its members. *)
Theorem centroid_in_box (lo hi : Z) (points : list ColorPoint)
    (Hne : points <> []) (Hall : Forall (in_box lo hi) points) :
  in_box lo hi (centroid points).
Proof.
  rewrite centroid_channels.
  assert (Hn : 0 < Z.of_nat (length points))
    by (destruct points; [congruence | simpl; lia]).
  unfold in_box.
  split; [|split]; apply round_div_box; try exact Hn;
    apply (channel_sum_box Hall); auto.
Qed.

Lemma channel_sum_permutation (channel : ColorPoint -> Z)
    (l l' : list ColorPoint) :
  Permutation l l' -> channel_sum channel l = channel_sum channel l'.
Proof.
  induction 1 as [|x l l' Hp IH|x y l|l l' l'' H1 IH1 H2 IH2];
    cbn [channel_sum fold_right] in *.
  - reflexivity.
  - fold (channel_sum channel l). fold (channel_sum channel l').
    now rewrite IH.
  - lia.
  - congruence.
Qed.

(** X28. The centroid of a cluster does not depend on the order of its
    points. *)
Theorem centroid_order (l l' : list ColorPoint) (Hperm : Permutation l l') :
  centroid l = centroid l'.
Proof.
  rewrite !centroid_channels.
  rewrite (Permutation_length Hperm).
  now rewrite !(channel_sum_permutation _ Hperm).
Qed.

Lemma centroid_order_witness :
  centroid [(0, 0, 0); (255, 255, 255); (10, 20, 30)]
  = centroid [(10, 20, 30); (0, 0, 0); (255, 255, 255)].
Proof.
  apply centroid_order.
  apply Permutation_sym. apply (Permutation_cons_app [_; _] []).
  apply Permutation_refl.
Defined.

Lemma centroid_in_box_witness :
  in_box 0 255 (centroid [(0, 0, 0); (255, 255, 255); (10, 20, 30)]).
Proof.
  apply centroid_in_box; [discriminate|].
  repeat constructor; simpl; lia.
Defined.

Lemma channel_sum_repeat (channel : ColorPoint -> Z) (p : ColorPoint)
    (n : nat) :
  channel_sum channel (repeat p n) = Z.of_nat n * channel p.
Proof.
  induction n as [|n IH].
  - reflexivity.
  - cbn [repeat channel_sum fold_right]. fold (channel_sum channel (repeat p n)).
    rewrite IH. lia.
Qed.

Lemma centroid_constant (p : ColorPoint) (n : nat) :
  (1 <= n)%nat -> centroid (repeat p n) = p.
Proof.
  intros Hn. rewrite centroid_channels, repeat_length, !channel_sum_repeat.
  destruct p as [[r g] b]. unfold red, green, blue. cbn [fst snd].
  assert (Hc : forall x, round_div (Z.of_nat n * x) (Z.of_nat n) = x).
  { intros x. pose proof (@round_div_bounds (Z.of_nat n * x) (Z.of_nat n)
                            ltac:(lia)). nia. }
  now rewrite !Hc.
Qed.

(** ** What the centers are made of *)

Section CenterInvariant.

Variable rnd : nat -> Q.

Lemma array_get_In (pixels : list ColorPoint) (i : Z) (p : ColorPoint) :
  array_get pixels i = Some p -> In p pixels.
Proof.
  unfold array_get. destruct (i <? 0); [discriminate|].
  apply nth_error_In.
Qed.

Lemma mapM_new_center_updated (pixels : list ColorPoint)
    (clusters : list (list ColorPoint)) (s s' : state) (cs : list Slot) :
  mapM (new_center rnd pixels) clusters s = (Ok cs, s') ->
  Forall2 (updated_from pixels) clusters cs.
Proof.
  revert s cs. induction clusters as [|points rest IH]; intros s cs.
  - cbn [mapM]. unfold ret. intros [= <- _]. constructor.
  - cbn [mapM]. unfold bind at 1.
    destruct (new_center rnd pixels points s) as [[c| |] s1] eqn:Hc;
      try discriminate.
    unfold bind at 1.
    destruct (mapM (new_center rnd pixels) rest s1) as [[cs1| |] s2] eqn:Hrest;
      try discriminate.
    unfold ret. intros [= <- <-]. constructor; [|now apply (IH s1)].
    destruct points as [|p points]; cbn [new_center] in Hc.
    + unfold bind, random, ret in Hc. injection Hc as <- _.
      cbn [updated_from].
      destruct (array_get pixels _) as [q|] eqn:Hq; [|now left].
      right. exists q. split; [reflexivity | now apply array_get_In in Hq].
    + unfold ret in Hc. injection Hc as <- _. reflexivity.
Qed.

Lemma kmeans_pass_update (pixels : list ColorPoint) (k : nat)
    (centers : list Slot) (s s' : state) (old' : list ColorPoint)
    (cs' : list Slot) :
  kmeans_pass rnd pixels k centers s = (Ok (old', cs'), s') ->
  exists clusters,
    assign_all centers pixels (repeat [] k) = Ok clusters
    /\ Forall2 (updated_from pixels) clusters cs'.
Proof.
  unfold kmeans_pass. unfold bind at 1. cbn [emit].
  unfold bind at 1, lift at 1.
  destruct (map_outcome defined centers) as [old| |]; try discriminate.
  unfold bind at 1, lift at 1.
  destruct (assign_all centers pixels (repeat [] k)) as [clusters| |];
    try discriminate.
  unfold bind at 1. cbn [emit]. unfold bind at 1.
  match goal with
  | |- context [mapM _ clusters ?st] =>
      destruct (mapM (new_center rnd pixels) clusters st)
        as [[cs| |] s1] eqn:Hmap
  end; try discriminate.
  unfold bind, emit, ret. intros [= _ <- _].
  exists clusters. split; [reflexivity|].
  now apply mapM_new_center_updated in Hmap.
Qed.

Variable Inv : ColorPoint -> Prop.
Hypothesis Inv_centroid :
  forall points, points <> [] -> Forall Inv points -> Inv (centroid points).

Lemma pass_invariant (pixels : list ColorPoint) (k : nat)
    (centers : list Slot) (s s' : state) (old' : list ColorPoint)
    (cs' : list Slot) :
  pixels <> [] -> unit_interval rnd -> Forall Inv pixels ->
  kmeans_pass rnd pixels k centers s = (Ok (old', cs'), s') ->
  Forall (slot_satisfies Inv) cs'.
Proof.
  intros Hne Hrnd HQ Hpass.
  pose proof (kmeans_pass_spec rnd pixels k centers s) as Hspec.
  rewrite Hpass in Hspec. destruct Hspec as (_ & _ & Hdef & _).
  specialize (Hdef Hne Hrnd).
  destruct (kmeans_pass_update _ _ _ _ Hpass) as (clusters & Hassign & Hup).
  pose proof (assign_all_spec centers pixels (repeat [] k)) as Hspec.
  rewrite Hassign in Hspec. destruct Hspec as (_ & Hperm & _).
  rewrite concat_repeat_nil in Hperm. cbn [app] in Hperm.
  assert (Hmem : Forall (Forall Inv) clusters).
  { apply Forall_forall. intros cl Hcl. apply Forall_forall. intros p Hp.
    rewrite Forall_forall in HQ. apply HQ.
    apply Permutation_in with (1 := Hperm).
    apply in_concat. exists cl. auto. }
  clear Hassign Hperm Hpass.
  induction Hup as [|points c clusters cs Hc Hrest IH].
  - constructor.
  - inversion Hdef as [|? ? Hcdef Hcsdef]; subst.
    inversion Hmem as [|? ? Hpts Hcls]; subst.
    constructor; [|now apply IH].
    destruct points as [|p points]; cbn [updated_from] in Hc.
    + destruct Hc as [->|(q & -> & Hq)]; [congruence|].
      cbn [slot_satisfies]. rewrite Forall_forall in HQ. now apply HQ.
    + rewrite Hc. cbn [slot_satisfies]. apply Inv_centroid; [discriminate|].
      exact Hpts.
Qed.

Lemma loop_invariant (pixels : list ColorPoint) (k : nat)
    (max_iterations : Z) :
  pixels <> [] -> unit_interval rnd -> Forall Inv pixels ->
  forall (fuel : nat) (centers : list Slot) (old : list ColorPoint)
         (iterations : Z) (s : state) (r : list Slot),
    Forall (slot_satisfies Inv) centers ->
    fst (kmeans_loop rnd fuel pixels k max_iterations centers old
           iterations s) = Ok r ->
    Forall (slot_satisfies Inv) r.
Proof.
  intros Hne Hrnd HQ.
  induction fuel as [|f IH]; intros centers old iterations s r Hc.
  - discriminate.
  - rewrite kmeans_loop_unfold.
    destruct (isConverged old centers) as [[|]| |]; try discriminate.
    + intros [= <-]. exact Hc.
    + destruct (iterations <=? max_iterations).
      * destruct (kmeans_pass rnd pixels k centers s)
          as [[[old' cs']| |] s1] eqn:Hpass; try discriminate.
        cbn [fst snd]. apply IH.
        exact (@pass_invariant pixels k centers s s1 old' cs' Hne Hrnd HQ
                 Hpass).
      * intros [= <-]. exact Hc.
Qed.

End CenterInvariant.

Lemma firstn_In (T : Type) (n : nat) (l : list T) (x : T) :
  In x (firstn n l) -> In x l.
Proof.
  intros H. rewrite <- (firstn_skipn n l). apply in_or_app. now left.
Qed.

Lemma slots_defined (Inv : ColorPoint -> Prop) (l : list Slot) :
  Forall (slot_satisfies Inv) l ->
  exists r, l = map Some r /\ Forall Inv r.
Proof.
  induction 1 as [|[p|] l Hp Hl (r & -> & Hr)].
  - exists []. split; [reflexivity | constructor].
  - exists (p :: r). split; [reflexivity | now constructor].
  - destruct Hp.
Qed.

Lemma kmeans_loop_first (rnd : nat -> Q) (fuel : nat)
    (pixels : list ColorPoint) (k : nat) (max_iterations : Z)
    (centers : list Slot) (s : state) :
  0 <= max_iterations ->
  kmeans_loop rnd (S fuel) pixels k max_iterations centers [] 0 s
  = match kmeans_pass rnd pixels k centers s with
    | (Ok next, s1) =>
        kmeans_loop rnd fuel pixels k max_iterations (snd next) (fst next)
          (0 + 1) s1
    | (Throw, s1) => (Throw, s1)
    | (OutOfFuel, s1) => (OutOfFuel, s1)
    end.
Proof.
  intros Hmax. rewrite kmeans_loop_unfold. cbn [isConverged].
  destruct (Z.leb_spec 0 max_iterations); [reflexivity | lia].
Qed.

(** A property of points that the pixels have and that centroids keep is
    a property of the [k] centers returned. *)
Lemma kmeans_result_invariant (rnd : nat -> Q) (Inv : ColorPoint -> Prop)
    (pixels : list ColorPoint) (k : nat) (max_iterations : Z) :
  (forall points, points <> [] -> Forall Inv points -> Inv (centroid points)) ->
  pixels <> [] -> (1 <= k)%nat -> unit_interval rnd -> 0 <= max_iterations ->
  Forall Inv pixels ->
  exists r s',
    (forall fuel, (Z.to_nat (max_iterations + 1) < fuel)%nat ->
       kmeans rnd fuel pixels k max_iterations initial_state
       = (Ok (map Some r, shuffled rnd pixels initial_state), s'))
    /\ length r = k
    /\ Forall Inv r.
Proof.
  intros Hcentroid Hne Hk Hrnd Hmax Hpix.
  destruct (@kmeans_returns rnd pixels k max_iterations Hne Hk Hrnd Hmax)
    as (r0 & s' & Hruns).
  set (sorted := shuffled rnd pixels initial_state) in *.
  pose proof (shuffled_permutation rnd pixels initial_state) as Hperm.
  fold sorted in Hperm.
  assert (Hsorted : sorted <> []).
  { intros E. apply Hne. apply Permutation_nil, Permutation_sym.
    now rewrite <- E. }
  assert (HsortedInv : Forall Inv sorted).
  { apply Forall_forall. intros p Hp. rewrite Forall_forall in Hpix.
    apply Hpix. apply Permutation_in with (2 := Hp).
    now apply Permutation_sym. }
  destruct (Z.to_nat (max_iterations + 1)) as [|f0] eqn:Hf0; [lia|].
  pose proof (Hruns (S (S f0)) ltac:(lia)) as Hrun.
  rewrite kmeans_unfold in Hrun. cbv zeta in Hrun. fold sorted in Hrun.
  set (centers0 := map Some (firstn k sorted)) in *.
  set (s0 := loop_start rnd pixels k initial_state) in *.
  destruct (kmeans_loop rnd (S (S f0)) sorted k max_iterations centers0 [] 0
              s0) as [out s1] eqn:Hloop.
  cbn [fst snd] in Hrun. destruct out as [r1| |]; try discriminate.
  injection Hrun as -> ->.
  assert (Hinv : Forall (slot_satisfies Inv) r0).
  { apply (@loop_invariant rnd Inv Hcentroid sorted k max_iterations Hsorted
             Hrnd HsortedInv (S (S f0)) centers0 [] 0 s0).
    - unfold centers0. apply Forall_forall. intros c Hc.
      apply in_map_iff in Hc. destruct Hc as (p & <- & Hp).
      cbn [slot_satisfies]. rewrite Forall_forall in HsortedInv.
      apply HsortedInv. now apply firstn_In in Hp.
    - now rewrite Hloop. }
  assert (Hlen : length r0 = k).
  { rewrite kmeans_loop_first in Hloop by exact Hmax.
    pose proof (kmeans_pass_spec rnd sorted k centers0 s0) as Hspec.
    destruct (kmeans_pass rnd sorted k centers0 s0)
      as [[[old' cs']| |] s2]; try discriminate.
    destruct Hspec as (_ & Hk' & _). cbn [fst snd] in Hloop.
    destruct (kmeans_loop_trace rnd sorted k max_iterations (S f0) cs' old'
                (0 + 1) s2) as [_ Hr].
    rewrite Hloop in Hr. destruct (Hr r0 eq_refl) as [->|H]; assumption. }
  destruct (slots_defined Hinv) as (r & -> & Hr).
  exists r, s'. split; [exact Hruns|]. split; [|exact Hr].
  now rewrite length_map in Hlen.
Qed.

(** X19. On a non-empty array, with a positive [k], a non-negative
    [max_iterations] and an oracle within [0, 1), [kmeans] returns exactly
    [k] points, none of them [undefined], and every channel of every one
    of them lies within any range that holds the channels of the pixels. *)
Theorem kmeans_returns_colors (rnd : nat -> Q) (pixels : list ColorPoint)
    (k : nat) (max_iterations lo hi : Z)
    (Hne : pixels <> []) (Hk : (1 <= k)%nat) (Hrnd : unit_interval rnd)
    (Hmax : 0 <= max_iterations) (Hbox : Forall (in_box lo hi) pixels) :
  exists r s',
    (forall fuel, (Z.to_nat (max_iterations + 1) < fuel)%nat ->
       kmeans rnd fuel pixels k max_iterations initial_state
       = (Ok (map Some r, shuffled rnd pixels initial_state), s'))
    /\ length r = k
    /\ Forall (in_box lo hi) r.
Proof.
  apply kmeans_result_invariant; try assumption.
  intros points Hp Hall. now apply centroid_box.
Qed.

Lemma kmeans_returns_colors_witness :
  exists r s',
    kmeans (fun _ => 0%Q) 102 [(0, 0, 0); (255, 255, 255)] 3 100 initial_state
    = (Ok (map Some r, [(0, 0, 0); (255, 255, 255)]), s')
    /\ length r = 3%nat
    /\ Forall (in_box 0 255) r.
Proof.
  destruct (@kmeans_returns_colors (fun _ => 0%Q)
              [(0, 0, 0); (255, 255, 255)] 3 100 0 255
              ltac:(discriminate) ltac:(lia)
              ltac:(intros n; split; [discriminate | reflexivity])
              ltac:(lia)
              ltac:(repeat constructor; simpl; lia))
    as (r & s' & Hrun & Hlen & Hbox).
  exists r, s'. split; [|split; assumption].
  exact (Hrun 102%nat ltac:(simpl; lia)).
Defined.

(** ** An array of equal pixels *)

Lemma Forall_eq_repeat (T : Type) (x : T) (l : list T) :
  Forall (eq x) l -> l = repeat x (length l).
Proof.
  induction 1 as [|y l <- Hl IH]; [reflexivity|].
  simpl. now rewrite <- IH.
Qed.

Lemma centroid_of_equal (p : ColorPoint) (points : list ColorPoint) :
  points <> [] -> Forall (eq p) points -> p = centroid points.
Proof.
  intros Hne Hall. rewrite (Forall_eq_repeat Hall).
  symmetry. apply centroid_constant.
  destruct points; [congruence | simpl; lia].
Qed.

Lemma map_Some_injective (T : Type) (l l' : list T) :
  map Some l = map Some l' -> l = l'.
Proof.
  revert l'. induction l as [|x l IH]; intros [|y l']; simpl;
    try discriminate; [reflexivity|].
  intros [= -> H]. f_equal. now apply IH.
Qed.

(** X20. On a non-empty array whose pixels are all the same point, with a
    positive [k], a non-negative [max_iterations] and an oracle within
    [0, 1), [kmeans] makes exactly one pass and returns [k] copies of the
    point, leaving the array as it was. *)
Theorem kmeans_equal_pixels (rnd : nat -> Q) (fuel : nat)
    (pixels : list ColorPoint) (p : ColorPoint) (k : nat)
    (max_iterations : Z)
    (Hne : pixels <> []) (Hall : Forall (eq p) pixels)
    (Hk : (1 <= k)%nat) (Hrnd : unit_interval rnd)
    (Hmax : 0 <= max_iterations) (Hfuel : (2 <= fuel)%nat) :
  exists s',
    kmeans rnd fuel pixels k max_iterations initial_state
    = (Ok (repeat (Some p) k, pixels), s')
    /\ passes (trace s') = 1%nat.
Proof.
  set (sorted := shuffled rnd pixels initial_state).
  pose proof (shuffled_permutation rnd pixels initial_state) as Hperm.
  fold sorted in Hperm.
  assert (HsortedAll : Forall (eq p) sorted).
  { apply Forall_forall. intros q Hq. rewrite Forall_forall in Hall.
    apply Hall. apply Permutation_in with (2 := Hq).
    now apply Permutation_sym. }
  assert (Hsame : sorted = pixels).
  { rewrite (Forall_eq_repeat HsortedAll), (Forall_eq_repeat Hall).
    now rewrite (Permutation_length Hperm). }
  assert (Hsorted : sorted <> []) by (now rewrite Hsame).
  destruct fuel as [|[|f]]; try lia.
  rewrite kmeans_unfold. cbv zeta. fold sorted.
  set (s0 := loop_start rnd pixels k initial_state).
  rewrite kmeans_loop_first by exact Hmax.
  destruct (@first_pass_runs rnd sorted k s0 Hk)
    as (old' & cs' & clusters & s1 & Hpass & Ht).
  rewrite Hpass. cbn [fst snd].
  pose proof (kmeans_pass_spec rnd sorted k (map Some (firstn k sorted)) s0)
    as Hspec.
  rewrite Hpass in Hspec. destruct Hspec as (Hold & Hlen & _).
  apply map_Some_injective in Hold.
  pose proof (@pass_invariant rnd (eq p) (@centroid_of_equal p) sorted k
                (map Some (firstn k sorted)) s0 s1 old' cs' Hsorted Hrnd
                HsortedAll Hpass) as Hcs.
  assert (Hcs' : cs' = repeat (Some p) k).
  { rewrite <- Hlen. apply Forall_eq_repeat.
    apply Forall_forall. intros c Hc. rewrite Forall_forall in Hcs.
    specialize (Hcs c Hc). destruct c as [q|]; [|destruct Hcs].
    cbn [slot_satisfies] in Hcs. now rewrite Hcs. }
  assert (HoldAll : Forall (eq p) old').
  { rewrite <- Hold. apply Forall_forall. intros q Hq.
    apply firstn_In in Hq. rewrite Forall_forall in HsortedAll.
    now apply HsortedAll. }
  assert (HoldLen : (1 <= length old' <= k)%nat).
  { rewrite <- Hold, length_firstn.
    destruct sorted; [congruence | simpl; lia]. }
  assert (Hconv : isConverged old' cs' = Ok true).
  { unfold isConverged. destruct old' as [|o rest] eqn:Eold;
      [simpl in HoldLen; lia|].
    rewrite <- Eold in *. apply converged_from_true. intros j Hj.
    exists p, p. rewrite (Forall_eq_repeat HoldAll), Hcs'.
    rewrite !nth_error_repeat by lia. repeat split.
    replace (euclideanDistance p p) with 0%R.
    - apply Rle_0_1.
    - symmetry. now apply distance_zero. }
  rewrite kmeans_loop_unfold, Hconv. cbn [fst snd].
  exists s1. rewrite Hcs', Hsame. split; [reflexivity|].
  rewrite Ht. reflexivity.
Qed.

Lemma kmeans_equal_pixels_witness :
  exists s',
    kmeans (fun _ => 0%Q) 2 [(10, 10, 10); (10, 10, 10); (10, 10, 10)] 1 100
      initial_state
    = (Ok ([Some (10, 10, 10)], [(10, 10, 10); (10, 10, 10); (10, 10, 10)]),
       s')
    /\ passes (trace s') = 1%nat.
Proof.
  exact (@kmeans_equal_pixels (fun _ => 0%Q) 2
           [(10, 10, 10); (10, 10, 10); (10, 10, 10)] (10, 10, 10) 1 100
           ltac:(discriminate) ltac:(repeat constructor) ltac:(lia)
           ltac:(intros n; split; [discriminate | reflexivity])
           ltac:(lia) ltac:(lia)).
Defined.

(** ** Inputs at the edge *)

(** X21. With [k = 0] and a non-empty array, [kmeans] throws in its first
    assignment step: there is no center to go to. *)
Theorem kmeans_no_cluster_throws (rnd : nat -> Q) (fuel : nat)
    (pixels : list ColorPoint) (max_iterations : Z) (s : state)
    (Hne : pixels <> []) (Hmax : 0 <= max_iterations)
    (Hfuel : (1 <= fuel)%nat) :
  fst (kmeans rnd fuel pixels 0 max_iterations s) = Throw.
Proof.
  destruct fuel as [|f]; [lia|].
  rewrite kmeans_unfold. cbv zeta. cbn [fst].
  pose proof (shuffled_permutation rnd pixels s) as Hperm.
  destruct (shuffled rnd pixels s) as [|q rest] eqn:Hsorted.
  - exfalso. apply Hne. now apply Permutation_nil, Permutation_sym.
  - rewrite kmeans_loop_first by exact Hmax. reflexivity.
Qed.

Lemma kmeans_no_cluster_throws_witness :
  fst (kmeans (fun _ => 0%Q) 5 [(1, 2, 3)] 0 100 initial_state) = Throw.
Proof.
  exact (@kmeans_no_cluster_throws (fun _ => 0%Q) 5 [(1, 2, 3)] 100
           initial_state ltac:(discriminate) ltac:(lia) ltac:(lia)).
Defined.

(** X22. With a negative [max_iterations] the loop body never runs: [kmeans]
    returns the first [k] elements of the shuffled array. *)
Theorem kmeans_negative_budget (rnd : nat -> Q) (fuel : nat)
    (pixels : list ColorPoint) (k : nat) (max_iterations : Z)
    (Hmax : max_iterations < 0) (Hfuel : (1 <= fuel)%nat) :
  exists s',
    kmeans rnd fuel pixels k max_iterations initial_state
    = (Ok (map Some (firstn k (shuffled rnd pixels initial_state)),
           shuffled rnd pixels initial_state), s')
    /\ passes (trace s') = 0%nat.
Proof.
  destruct fuel as [|f]; [lia|].
  rewrite kmeans_unfold. cbv zeta.
  rewrite kmeans_loop_unfold. cbn [isConverged].
  destruct (Z.leb_spec 0 max_iterations); [lia|].
  eexists. split; reflexivity.
Qed.

Lemma kmeans_negative_budget_witness :
  exists s',
    kmeans (fun _ => 9 # 10) 5 [(1, 2, 3); (4, 5, 6)] 1 (-1) initial_state
    = (Ok ([Some (4, 5, 6)], [(4, 5, 6); (1, 2, 3)]), s')
    /\ passes (trace s') = 0%nat.
Proof.
  exact (@kmeans_negative_budget (fun _ => 9 # 10) 5 [(1, 2, 3); (4, 5, 6)] 1
           (-1) ltac:(lia) ltac:(lia)).
Defined.

Lemma mapM_new_center_empty_array (rnd : nat -> Q) (k : nat) (s : state) :
  exists s',
    mapM (new_center rnd []) (repeat [] k) s = (Ok (repeat None k), s')
    /\ trace s' = trace s.
Proof.
  revert s. induction k as [|k IH]; intros s.
  - exists s. split; reflexivity.
  - cbn [repeat mapM]. unfold bind at 1.
    assert (Hnew : new_center rnd [] [] s
                   = (Ok None, {| draws := S (draws s); trace := trace s |})).
    { cbn [new_center]. unfold bind, random, ret. f_equal. f_equal.
      unfold array_get.
      destruct (_ <? 0); [reflexivity|]. now destruct (Z.to_nat _). }
    rewrite Hnew.
    destruct (IH {| draws := S (draws s); trace := trace s |})
      as (s' & Hrest & Ht).
    unfold bind at 1. rewrite Hrest. unfold ret.
    exists s'. split; [reflexivity | exact Ht].
Qed.

(** X23. On an empty array with a positive [k], the first pass fills the
    centers with [undefined]: [kmeans] returns [k] times [undefined] when
    [max_iterations] is 0, and throws in the second pass when it is
    larger. *)
Theorem kmeans_empty_array (rnd : nat -> Q) (fuel : nat) (k : nat)
    (max_iterations : Z)
    (Hk : (1 <= k)%nat) (Hmax : 0 <= max_iterations)
    (Hfuel : (2 <= fuel)%nat) :
  fst (kmeans rnd fuel [] k max_iterations initial_state)
  = if max_iterations =? 0 then Ok (repeat None k, []) else Throw.
Proof.
  destruct fuel as [|[|f]]; try lia.
  rewrite kmeans_unfold. cbv zeta.
  change (shuffled rnd [] initial_state) with (@nil ColorPoint).
  rewrite firstn_nil. cbn [map].
  rewrite kmeans_loop_first by exact Hmax.
  set (s0 := loop_start rnd [] k initial_state).
  assert (Hpass : exists s1,
             kmeans_pass rnd [] k [] s0 = (Ok ([], repeat None k), s1)).
  { unfold kmeans_pass. unfold bind at 1. cbn [emit].
    unfold bind at 1, lift at 1. cbn [map_outcome].
    unfold bind at 1, lift at 1. cbn [assign_all].
    unfold bind at 1. cbn [emit]. unfold bind at 1.
    match goal with
    | |- context [mapM _ _ ?st] =>
        destruct (mapM_new_center_empty_array rnd k st) as (s1 & -> & _)
    end.
    unfold bind, emit, ret. eexists. reflexivity. }
  destruct Hpass as (s1 & ->). cbn [fst snd].
  rewrite kmeans_loop_unfold. cbn [isConverged].
  destruct (Z.eqb_spec max_iterations 0) as [->|Hne].
  - reflexivity.
  - destruct (Z.leb_spec (0 + 1) max_iterations); [|lia].
    destruct k as [|k]; [lia|]. reflexivity.
Qed.

Lemma kmeans_empty_array_witness :
  fst (kmeans (fun _ => 0%Q) 5 [] 2 100 initial_state) = Throw.
Proof.
  exact (@kmeans_empty_array (fun _ => 0%Q) 5 2 100
           ltac:(lia) ltac:(lia) ltac:(lia)).
Defined.

(** ** The three outcomes of the convergence test *)

Lemma nth_slot (new_centers : list Slot) (i : nat) (c : ColorPoint) :
  nth i new_centers None = Some c <-> nth_error new_centers i = Some (Some c).
Proof.
  split.
  - intros H. destruct (nth_error new_centers i) as [x|] eqn:Hx.
    + apply (nth_error_nth _ _ None) in Hx. congruence.
    + apply nth_error_None in Hx. rewrite nth_overflow in H by assumption.
      discriminate.
  - intros H. now apply nth_error_nth.
Qed.

Lemma close_pair_shift (o : ColorPoint) (rest : list ColorPoint) (i : nat)
    (new_centers : list Slot) (j : nat) :
  close_pair (o :: rest) i new_centers (S j)
  <-> close_pair rest (S i) new_centers j.
Proof.
  unfold close_pair. cbn [nth_error].
  replace (i + S j)%nat with (S i + j)%nat by lia. reflexivity.
Qed.

Lemma converged_from_throw (pending : list ColorPoint) (i : nat)
    (new_centers : list Slot) :
  converged_from pending i new_centers = Throw
  <-> exists j, (j < length pending)%nat
                /\ nth (i + j) new_centers None = None
                /\ forall j', (j' < j)%nat ->
                     close_pair pending i new_centers j'.
Proof.
  revert i. induction pending as [|o rest IH]; intros i; cbn [converged_from].
  - split; [discriminate | intros (j & Hj & _); simpl in Hj; lia].
  - destruct (nth i new_centers None) as [c|] eqn:Hc.
    + destruct (1 <? sqdist o c) eqn:Hd.
      * split; [discriminate|]. intros (j & Hj & Hnone & Hclose).
        destruct j as [|j].
        -- rewrite Nat.add_0_r in Hnone. congruence.
        -- destruct (Hclose O ltac:(lia)) as (o' & c' & Ho & Hc' & Hle).
           cbn [nth_error] in Ho. injection Ho as <-.
           rewrite Nat.add_0_r in Hc'. apply nth_slot in Hc'.
           assert (c' = c) by congruence. subst c'.
           apply distance_gt_1 in Hle. congruence.
      * rewrite IH. split.
        -- intros (j & Hj & Hnone & Hclose). exists (S j).
           split; [simpl; lia|]. split.
           ++ now replace (i + S j)%nat with (S i + j)%nat by lia.
           ++ intros [|j'] Hj'.
              ** exists o, c. split; [reflexivity|]. split.
                 --- rewrite Nat.add_0_r. now apply nth_slot.
                 --- now apply distance_gt_1.
              ** apply (proj2 (close_pair_shift o rest i new_centers j')).
                 apply Hclose. lia.
        -- intros (j & Hj & Hnone & Hclose). destruct j as [|j].
           ++ rewrite Nat.add_0_r in Hnone. congruence.
           ++ exists j. split; [simpl in Hj; lia|]. split.
              ** now replace (S i + j)%nat with (i + S j)%nat by lia.
              ** intros j' Hj'.
                 apply (proj1 (close_pair_shift o rest i new_centers j')).
                 apply Hclose. lia.
    + split; [intros _|reflexivity].
      exists O. split; [simpl; lia|]. split.
      * now rewrite Nat.add_0_r.
      * intros j' Hj'. lia.
Qed.

(** X24. [isConverged] throws exactly when some index of [old_centers] has no
    point in [new_centers] (the list is too short, or holds [undefined]
    there) while every earlier pair is within distance 1. *)
Theorem isConverged_throws (old_centers : list ColorPoint)
    (new_centers : list Slot) :
  isConverged old_centers new_centers = Throw
  <-> exists i, (i < length old_centers)%nat
                /\ nth i new_centers None = None
                /\ forall j, (j < i)%nat ->
                     close_pair old_centers 0 new_centers j.
Proof.
  unfold isConverged. destruct old_centers as [|o rest].
  - split; [discriminate | intros (i & Hi & _); simpl in Hi; lia].
  - apply converged_from_throw.
Qed.

(** X25. Centers that have not moved pass the convergence test. *)
Theorem isConverged_unmoved (centers : list ColorPoint)
    (Hne : centers <> []) :
  isConverged centers (map Some centers) = Ok true.
Proof.
  unfold isConverged. destruct centers as [|o rest] eqn:E; [congruence|].
  rewrite <- E. apply converged_from_true. intros j Hj.
  destruct (nth_error centers j) as [c|] eqn:Hc.
  - exists c, c. split; [reflexivity|]. split.
    + cbn [Nat.add]. now rewrite nth_error_map, Hc.
    + replace (euclideanDistance c c) with 0%R; [apply Rle_0_1|].
      symmetry. now apply distance_zero.
  - apply nth_error_None in Hc. lia.
Qed.

Lemma isConverged_unmoved_witness :
  isConverged [(1, 2, 3); (4, 5, 6)] [Some (1, 2, 3); Some (4, 5, 6)]
  = Ok true.
Proof.
  exact (@isConverged_unmoved [(1, 2, 3); (4, 5, 6)] ltac:(discriminate)).
Defined.

(** ** Relative luminance on the linear segment *)

(** A channel is on the linear segment exactly when it is at most 10. *)
Lemma linear_channel_threshold (Math_pow : num -> num -> num) (val : Z) :
  linear_channel Math_pow val
  = if val <=? 10 then Fin (Qred (scaled val / (1292 # 100)))
    else Math_pow ((Fin (scaled val) + Fin (55 # 1000)) / Fin (1055 # 1000))%num
           (Fin (24 # 10)).
Proof.
  unfold linear_channel.
  change (of_Z val / of_Z 255)%num with (Fin (scaled val)).
  cbn [Num.leb].
  replace (Qle_bool (scaled val) (3928 # 100000)) with (val <=? 10).
  - destruct (val <=? 10); reflexivity.
  - apply eq_true_iff_eq. rewrite Qle_bool_iff, scaled_eq, Z.leb_le.
    unfold Qle. simpl. lia.
Qed.

(** X26. On a point whose channels are all at most 10, [getLuminance] never
    calls [Math.pow]: it is the weighted sum
    [(0.2126 r + 0.7152 g + 0.0722 b) / (255 * 12.92)]. *)
Theorem getLuminance_dark (r g b : Z)
    (Hr : r <= 10) (Hg : g <= 10) (Hb : b <= 10) :
  exists q,
    (forall Math_pow, getLuminance Math_pow (r, g, b) = Fin q)
    /\ q == inject_Z (2126 * r + 7152 * g + 722 * b) / inject_Z 32946000.
Proof.
  eexists. split.
  - intros Math_pow. unfold getLuminance.
    rewrite !linear_channel_threshold.
    destruct (Z.leb_spec r 10); [|lia].
    destruct (Z.leb_spec g 10); [|lia].
    destruct (Z.leb_spec b 10); [|lia].
    reflexivity.
  - rewrite !Qred_correct, !scaled_eq, !Qmake_Qdiv.
    rewrite !inject_Z_plus, !inject_Z_mult.
    unfold inject_Z. field.
Qed.

Lemma getLuminance_dark_witness :
  exists q,
    getLuminance (fun _ _ => NaN) (10, 5, 0) = Fin q
    /\ q == inject_Z (2126 * 10 + 7152 * 5 + 722 * 0) / inject_Z 32946000.
Proof.
  destruct (@getLuminance_dark 10 5 0 ltac:(lia) ltac:(lia) ltac:(lia))
    as (q & Hq & Hv).
  exists q. split; [apply Hq | exact Hv].
Defined.

(** ** What stopping early means *)

Lemma kmeans_loop_exit (rnd : nat -> Q) (pixels : list ColorPoint) (k : nat)
    (max_iterations : Z) :
  forall (fuel : nat) (centers : list Slot) (old : list ColorPoint)
         (iterations : Z) (s s' : state) (r : list Slot),
    kmeans_loop rnd fuel pixels k max_iterations centers old iterations s
    = (Ok r, s') ->
    iterations = Z.of_nat (passes (trace s)) ->
    (old = []
     \/ exists clusters rest,
          trace s = Updated centers :: Assigned (map Some old) clusters
                      :: rest) ->
    Z.of_nat (passes (trace s')) <= max_iterations ->
    exists prev clusters rest,
      trace s' = Updated r :: Assigned (map Some prev) clusters :: rest
      /\ isConverged prev r = Ok true.
Proof.
  induction fuel as [|f IH]; intros centers old iterations s s' r Hrun Hit
    Hshape Hfew.
  - discriminate.
  - rewrite kmeans_loop_unfold in Hrun.
    destruct (isConverged old centers) as [[|]| |] eqn:Hconv;
      try discriminate.
    + injection Hrun as <- <-.
      destruct Hshape as [->|(clusters & rest & Ht)]; [discriminate|].
      exists old, clusters, rest. split; assumption.
    + destruct (Z.leb_spec iterations max_iterations) as [Hle|Hgt].
      * pose proof (kmeans_pass_spec rnd pixels k centers s) as Hpass.
        destruct (kmeans_pass rnd pixels k centers s)
          as [[[old' cs']| |] s1]; try discriminate.
        destruct Hpass as (Hold & _ & _ & clusters & _ & Ht).
        cbn [fst snd] in Hrun.
        eapply IH; [exact Hrun | | | exact Hfew].
        -- rewrite Ht, Hit. unfold passes. cbn [filter length]. lia.
        -- right. exists clusters, (PassBegun :: trace s).
           now rewrite Ht, Hold.
      * injection Hrun as <- <-. lia.
Qed.

(** X27. When [kmeans] returns having begun no more than [max_iterations]
    passes, it stopped because the test succeeded: the centers returned are
    those of the last update, and each of them is within distance 1 of the
    center the last assignment step used at the same index. *)
Theorem kmeans_stops_converged (rnd : nat -> Q) (fuel : nat)
    (pixels : list ColorPoint) (k : nat) (max_iterations : Z)
    (r : list Slot) (after : list ColorPoint) (s' : state)
    (Hrun : kmeans rnd fuel pixels k max_iterations initial_state
            = (Ok (r, after), s'))
    (Hfew : Z.of_nat (passes (trace s')) <= max_iterations) :
  exists prev clusters rest,
    trace s' = Updated r :: Assigned (map Some prev) clusters :: rest
    /\ isConverged prev r = Ok true.
Proof.
  rewrite kmeans_unfold in Hrun. cbv zeta in Hrun.
  destruct (kmeans_loop rnd fuel (shuffled rnd pixels initial_state) k
              max_iterations
              (map Some (firstn k (shuffled rnd pixels initial_state))) [] 0
              (loop_start rnd pixels k initial_state))
    as [[r0| |] s0] eqn:Hloop; cbn [fst snd] in Hrun; try discriminate.
  injection Hrun as -> _ ->.
  eapply kmeans_loop_exit;
    [exact Hloop | reflexivity | now left | exact Hfew].
Qed.

Lemma kmeans_stops_converged_witness :
  isConverged [(128, 128, 128)] [Some (128, 128, 128)] = Ok true.
Proof.
  destruct (@kmeans_stops_converged (fun _ => 9 # 10) 102
              [(0, 0, 0); (255, 255, 255)] 1 100
              [Some (128, 128, 128)] [(255, 255, 255); (0, 0, 0)]
              _ ltac:(vm_compute; reflexivity) ltac:(vm_compute; discriminate))
    as (prev & clusters & rest & Ht & Hconv).
  vm_compute in Ht. injection Ht as Hprev _ _.
  destruct prev as [|p [|q prev]]; try discriminate.
  injection Hprev as <-. exact Hconv.
Defined.
